(** * ABI word coder: Result, Writer and Reader of [abstract-coder.ts]

    A shallow embedding of [src.ts/abi/coders/abstract-coder.ts] and the
    properties of its three containers:
    - [Result]: the array of decoded values with named access and deferred
      errors, together with [checkResultErrors];
    - [Writer]: the chunk list with its running length and back-patching;
    - [Reader]: the cursor over an immutable buffer with its loose mode.

    JavaScript exceptions are values of [outcome]; a method that mutates its
    object returns the new object next to its outcome. *)

From Stdlib Require Import ZArith NArith Lia List Ascii String.
From Stdlib Require Import DecimalString DecimalNat.
From Stdlib Require Import Strings.Byte.
From stdpp Require Import base list strings gmap.

Set Warnings "-register-all".

(** ** Values, exceptions and the outcome of a call *)

(** The JavaScript values that can sit in a slot of a [Result]. An [Error]
    instance is [VError message error], [error] being its [.error] property
    ([VUndefined] when it has none). [VResult wrap items names] is a [Result]
    object: [wrap = true] is the frozen object behind its [Proxy] (what
    [fromItems] hands out), [wrap = false] the bare object, as [this] is
    inside a method, or as built by [new Result(...args)]. *)
Inductive value : Type :=
| VUndefined
| VBigInt (n : Z)
| VString (s : string)
| VBytes (bs : list byte)
| VError (message : string) (error : value)
| VResult (wrap : bool) (items : list value) (names : list (option string)).

(** The [info] object of the two [BUFFER_OVERRUN] assertions. *)
Record overrun_info : Type := OverrunInfo {
  info_buffer : list byte;
  info_length : nat;
  info_offset : nat
}.

(** What can be thrown: [new Error(message)] with its [.error] property
    ([throwError]), [new RangeError(message)], and the error that
    [assert(false, message, code, info)] of the utils builds. *)
Inductive exn : Type :=
| JsError (message : string) (error : value)
| JsRangeError (message : string)
| EthersError (message : string) (code : string) (info : overrun_info).

Inductive outcome (A : Type) : Type :=
| Return (a : A)
| Throw (e : exn).
Arguments Return {A} a.
Arguments Throw {A} e.

Global Instance outcome_ret : MRet outcome := @Return.
Global Instance outcome_bind : MBind outcome := λ A B f c,
  match c with
  | Return a => f a
  | Throw e => Throw e
  end.
Global Instance outcome_fmap : FMap outcome := λ A B f c,
  match c with
  | Return a => Return (f a)
  | Throw e => Throw e
  end.

(** [assert(check, message, code, info)] of the utils. *)
Definition assert (check : bool) (message code : string) (info : overrun_info)
  : outcome unit :=
  if check then Return tt else Throw (EthersError message code info).

(** A number in a template literal, and the keys of [for (key in array)]. *)
Definition show (n : nat) : string := NilEmpty.string_of_uint (Nat.to_uint n).

Definition dquote : ascii := "034"%char.
Definition backslash : ascii := "092"%char.

Definition hexdigit (n : N) : ascii :=
  ascii_of_N (if (n <? 10)%N then 48 + n else 87 + n).

(** [JSON.stringify] on a string: quotes around it, the quote, the backslash
    and the control characters escaped. *)
Definition json_escape (c : ascii) : string :=
  let n := N_of_ascii c in
  if Ascii.eqb c dquote then String backslash (String dquote "")
  else if Ascii.eqb c backslash then String backslash (String backslash "")
  else if (n =? 8)%N then String backslash "b"
  else if (n =? 9)%N then String backslash "t"
  else if (n =? 10)%N then String backslash "n"
  else if (n =? 12)%N then String backslash "f"
  else if (n =? 13)%N then String backslash "r"
  else if (n <? 32)%N then
    String backslash
      ("u00" ++ String (hexdigit (n / 16)) (String (hexdigit (n mod 16)) ""))
  else String c "".

Fixpoint json_body (s : string) : string :=
  match s with
  | EmptyString => ""
  | String c rest => json_escape c ++ json_body rest
  end.

Definition JSON_stringify (s : string) : string :=
  String dquote (json_body s ++ String dquote "").

(** [function throwError(name, error): never] *)
Definition throwError {A} (name : string) (error : value) : outcome A :=
  Throw (JsError ("deferred error during ABI decoding triggered accessing " ++ name)
                 error).

(** [item instanceof Error] *)
Definition instanceofError (v : value) : bool :=
  match v with
  | VError _ _ => true
  | _ => false
  end.

(** ** Result *)

Module Result.

Record t : Type := mk {
  wrap : bool;
  items : list value;
  names : list (option string)    (* the private [#names] *)
}.

Definition to_value (r : t) : value := VResult (wrap r) (items r) (names r).

(** The object behind the proxy. The [get] trap hands every method out
    as [value.apply(target, args)], so inside a method [this] is this
    object and [this[i]] is a plain array read. *)
Definition target (r : t) : t := mk false (items r) (names r).

(** [names.reduce((accum, name) => ..., new Map())] *)
Definition nameCounts (names : list (option string)) : gmap string nat :=
  foldl (λ accum name,
           match name with
           | Some s => <[s := default 0 (accum !! s) + 1]> accum
           | None => accum
           end) ∅ names.

(** [items.map((item, index) => ...)], the value of [#names]. A [names]
    shorter than [items] reads [undefined], which is [== null]. *)
Definition uniqueNames (items : list value) (names : list (option string))
  : list (option string) :=
  let counts := nameCounts names in
  imap (λ index _,
          match names !! index with
          | Some (Some name) =>
              if decide (counts !! name = Some 1) then Some name else None
          | _ => None
          end) items.

(** [new Result(_guard, items, keys)] *)
Definition construct_guarded (items : list value)
    (keys : option (list (option string))) : t :=
  mk true items (uniqueNames items (default [] keys)).

(** [new Result(...args)] with anything but the guard first. *)
Definition construct_plain (args : list value) : t :=
  mk false args (uniqueNames args []).

(** [static fromItems(items, keys?)] *)
Definition fromItems (items : list value)
    (keys : option (list (option string))) : t :=
  construct_guarded items keys.

(** [target[index]]: a read of the bare array. *)
Definition raw (r : t) (index : nat) : value :=
  default VUndefined (items r !! index).

(** [result[index]] for a property matching [/^[0-9]+$/]: through the
    [get] trap when the Result is wrapped, a plain read otherwise. *)
Definition get (r : t) (index : nat) : outcome value :=
  if wrap r then
    if bool_decide (length (items r) ≤ index)
    then Throw (JsRangeError "out of result range")
    else
      let item := raw r index in
      if instanceofError item
      then throwError ("index " ++ show index) item
      else Return item
  else Return (raw r index).

(** The [forEach] callback of [toArray], over the items from [index] on. *)
Fixpoint forEach_check (index : nat) (l : list value) : outcome unit :=
  match l with
  | [] => Return tt
  | item :: rest =>
      if instanceofError item
      then throwError ("index " ++ show index) item
      else forEach_check (S index) rest
  end.

(** [toArray()]: the scan, then [Array.of(this)]. *)
Definition toArray (r : t) : outcome (list value) :=
  _ ← forEach_check 0 (items r);
  Return [to_value (target r)].

(** [this[i]] and [this.#names[i]] for the loop variable of [slice],
    which may run outside the array. *)
Definition rawZ (r : t) (i : Z) : value :=
  if bool_decide (0 ≤ i)%Z then raw r (Z.to_nat i) else VUndefined.

Definition nameZ (r : t) (i : Z) : option string :=
  if bool_decide (0 ≤ i)%Z then default None (names r !! Z.to_nat i) else None.

(** [slice(start?, end?)] *)
Definition slice (r : t) (start end_ : option Z) : outcome t :=
  let start := default 0%Z start in
  let end_ := default (Z.of_nat (length (items r))) end_ in
  let range := seqZ start (end_ - start) in
  Return (construct_guarded (rawZ r <$> range) (Some (nameZ r <$> range))).

(** The loop of [filter] from index [i] on, [result] and [names] being
    the two arrays it pushes to. *)
Fixpoint filter_loop (callback : value → nat → bool) (r : t) (i : nat)
    (rest : list value) (result : list value) (names_ : list (option string))
  : outcome (list value * list (option string)) :=
  match rest with
  | [] => Return (result, names_)
  | item :: rest' =>
      if instanceofError item
      then throwError ("index " ++ show i) item
      else if callback item i
           then filter_loop callback r (S i) rest' (result ++ [item])
                  (names_ ++ [default None (names r !! i)])
           else filter_loop callback r (S i) rest' result names_
  end.

(** [filter(callback, thisArg?)]. The callback is a total predicate on
    the element and its index; its third argument and [thisArg] are left
    out. *)
Definition filter (r : t) (callback : value → nat → bool) : outcome t :=
  '(result, names_) ← filter_loop callback r 0 (items r) [] [];
  Return (construct_guarded result (Some names_)).

(** [this.#names.indexOf(name)]; [None] is [-1]. *)
Fixpoint indexOf (l : list (option string)) (name : string) : option nat :=
  match l with
  | [] => None
  | x :: rest =>
      if decide (x = Some name) then Some 0
      else S <$> indexOf rest name
  end.

(** The [.error] property of a slot value. *)
Definition error_of (v : value) : value :=
  match v with
  | VError _ error => error
  | _ => VUndefined
  end.

(** [getValue(name)] *)
Definition getValue (r : t) (name : string) : outcome value :=
  match indexOf (names r) name with
  | None => Return VUndefined
  | Some index =>
      let value := raw r index in
      if instanceofError value
      then throwError ("property " ++ JSON_stringify name) (error_of value)
      else Return value
  end.

End Result.

(** ** checkResultErrors *)

Record error_entry : Type := ErrorEntry {
  entry_path : list string;
  entry_error : exn
}.

(** [object[key]] for the key [show index] of an own element [child] of an
    array whose proxy flag is [wrap]; [Result.get] computes the same
    ([get_own] below). *)
Definition get_element (wrap : bool) (index : nat) (child : value)
  : outcome value :=
  if wrap && instanceofError child
  then throwError ("index " ++ show index) child
  else Return child.

(** The [for (key in object)] loop of [checkErrors], from [index] on: it
    visits the own index keys ["0"], ["1"], ... of the array. [errors] is the
    array of the enclosing function, which every call pushes to: it is passed
    in and handed back next to the outcome. [try]/[catch] becomes the match
    on the outcome of the body, [rec] is the recursive call. *)
Definition checkErrors_loop
    (rec : list string → value → list error_entry
           → outcome unit * list error_entry)
    (path : list string) (wrap : bool) :=
  fix loop (index : nat) (l : list value) (errors : list error_entry)
      {struct l} : outcome unit * list error_entry :=
    match l with
    | [] => (Return tt, errors)
    | child :: rest =>
        let childPath := path ++ [show index] in
        let errors :=
          match get_element wrap index child with
          | Throw error => errors ++ [ErrorEntry childPath error]
          | Return _ =>
              match rec childPath child errors with
              | (Return _, errors) => errors
              | (Throw error, errors) => errors ++ [ErrorEntry childPath error]
              end
          end in
        loop (S index) rest errors
    end.

(** The inner [checkErrors(path, object)]. [Array.isArray(object)] holds
    of a Result, which is an [Array], and of no other value of the model. *)
Fixpoint checkErrors (path : list string) (object : value)
    (errors : list error_entry) {struct object}
  : outcome unit * list error_entry :=
  match object with
  | VResult wrap items _ => checkErrors_loop checkErrors path wrap 0 items errors
  | _ => (Return tt, errors)
  end.

(** [checkResultErrors(result)] *)
Definition checkResultErrors (result : Result.t) : outcome (list error_entry) :=
  let '(done, errors) := checkErrors [] (Result.to_value result) [] in
  _ ← done;
  Return errors.

(** ** Bytes and words *)

Definition WordSize : nat := 32.

(** [new Uint8Array(WordSize)] *)
Definition Padding : list byte := replicate WordSize x00.

(** [Math.ceil(length / WordSize) * WordSize] on a length: the least
    multiple of the word size that is not below it ([aligned_least]). *)
Definition aligned (length_ : nat) : nat :=
  ((length_ + (WordSize - 1)) / WordSize) * WordSize.

(** Modelled from the spec: [getBytesCopy], [concat] and [hexlify] of
    [utils/data.ts], which is not among the sources. They pass between a
    byte array and the hex string spelling it; both are held here as the
    byte sequence, so a copy is the sequence itself and [concat] of the
    utils is the concatenation of lists. *)
Definition getBytesCopy (value : list byte) : list byte := value.

(** [array.slice(start, end)] on a [Uint8Array], for indices that are not
    negative: both ends are clamped to the length. *)
Definition u8slice (array : list byte) (start end_ : nat) : list byte :=
  take (end_ - start) (drop start array).

Definition byte_of_N (n : N) : byte :=
  default x00 (Byte.of_N (n mod 256)).

(** The base-256 digits of [n], most significant first, in front of [acc]. *)
Fixpoint be_digits (fuel : nat) (n : N) (acc : list byte) : list byte :=
  match fuel with
  | O => acc
  | S fuel' =>
      if (n =? 0)%N then acc
      else be_digits fuel' (n / 256) (byte_of_N n :: acc)
  end.

(** Modelled from the spec: [toBeArray] of [utils/maths.ts], which is not
    among the sources: the big-endian byte representation of a non-negative
    integer, without leading zero bytes (none at all for zero). The number
    of binary digits of the value is fuel enough ([toBeArray_toBigInt]). *)
Definition toBeArray (value : N) : list byte :=
  be_digits (N.to_nat (N.size value)) value [].

(** Modelled from the spec: [toBigInt] of [utils/maths.ts] on a byte array:
    the bytes read as a big-endian unsigned integer. *)
Definition toBigInt (bytes : list byte) : N :=
  foldl (λ acc b, acc * 256 + Byte.to_N b)%N 0%N bytes.

(** [function getValue(value: BigNumberish): Uint8Array] *)
Definition getValue (value : N) : outcome (list byte) :=
  let bytes := toBeArray value in
  _ ← assert (bool_decide (length bytes ≤ WordSize))
         "value out-of-bounds" "BUFFER_OVERRUN"
         (OverrunInfo bytes WordSize (length bytes));
  Return (if bool_decide (length bytes ≠ WordSize)
          then getBytesCopy
                 (concat [drop (length bytes mod WordSize) Padding; bytes])
          else bytes).

(** ** Writer *)

Module Writer.

Record t : Type := mk {
  data : list (list byte);       (* [#data] *)
  dataLength : nat               (* [#dataLength] *)
}.

(** [constructor()] *)
Definition new : t := mk [] 0.

(** [get data()] *)
Definition get_data (w : t) : list byte := concat (data w).

(** [get length()] *)
Definition length (w : t) : nat := dataLength w.

(** [#writeData(data)] *)
Definition writeData (w : t) (data_ : list byte) : nat * t :=
  (List.length data_, mk (data w ++ [data_]) (dataLength w + List.length data_)).

(** [appendWriter(writer)] *)
Definition appendWriter (w writer : t) : nat * t :=
  writeData w (getBytesCopy (get_data writer)).

(** [writeBytes(value)] *)
Definition writeBytes (w : t) (value : list byte) : nat * t :=
  let bytes := getBytesCopy value in
  let paddingOffset := List.length bytes mod WordSize in
  let bytes :=
    if bool_decide (paddingOffset ≠ 0)
    then getBytesCopy (concat [bytes; drop paddingOffset Padding])
    else bytes in
  writeData w bytes.

(** [writeValue(value)] *)
Definition writeValue (w : t) (value : N) : outcome nat * t :=
  match getValue value with
  | Return bytes => let '(n, w') := writeData w bytes in (Return n, w')
  | Throw e => (Throw e, w)
  end.

(** The closure that [writeUpdatableValue] returns: the [offset] it
    captured. Calling it is [update]. *)
Record updater : Type := Updater { captured_offset : nat }.

(** [writeUpdatableValue()] *)
Definition writeUpdatableValue (w : t) : updater * t :=
  let offset := List.length (data w) in
  (Updater offset, mk (data w ++ [Padding]) (dataLength w + WordSize)).

(** [(value) => { this.#data[offset] = getValue(value); }]. The right-hand
    side is evaluated before the store. The closure exists only once the
    chunk at [offset] is pushed and chunks are never removed, so the store
    is always inside the array ([SessionFacts.updaters_in_range]). *)
Definition update (u : updater) (w : t) (value : N) : outcome unit * t :=
  match getValue value with
  | Return bytes =>
      (Return tt, mk (<[captured_offset u := bytes]> (data w)) (dataLength w))
  | Throw e => (Throw e, w)
  end.

End Writer.

(** A caller's session with one writer: the calls it makes, in order, and
    the closures it holds. A call that throws is caught by the caller, who
    goes on with the writer as the call left it. *)
Module Session.

Inductive call : Type :=
| AppendWriter (writer : Writer.t)
| WriteBytes (value : list byte)
| WriteValue (value : N)
| WriteUpdatableValue
| Update (k : nat) (value : N).     (* call the [k]-th closure obtained *)

Record state : Type := mk {
  writer : Writer.t;
  updaters : list Writer.updater
}.

Definition init : state := mk Writer.new [].

Definition step (s : state) (c : call) : state :=
  match c with
  | AppendWriter other => mk (Writer.appendWriter (writer s) other).2 (updaters s)
  | WriteBytes value => mk (Writer.writeBytes (writer s) value).2 (updaters s)
  | WriteValue value => mk (Writer.writeValue (writer s) value).2 (updaters s)
  | WriteUpdatableValue =>
      let '(u, w) := Writer.writeUpdatableValue (writer s) in
      mk w (updaters s ++ [u])
  | Update k value =>
      match updaters s !! k with
      | Some u => mk (Writer.update u (writer s) value).2 (updaters s)
      | None => s
      end
  end.

Definition run (calls : list call) : state := foldl step init calls.

End Session.

(** ** Reader *)

Module Reader.

Record t : Type := mk {
  allowLoose : bool;
  data : list byte;              (* [#data] *)
  offset : nat                   (* [#offset] *)
}.

(** [constructor(data, allowLoose?)] *)
Definition new (data_ : list byte) (allowLoose_ : bool) : t :=
  mk allowLoose_ (getBytesCopy data_) 0.

Definition dataLength (r : t) : nat := length (data r).
Definition consumed (r : t) : nat := offset r.

(** [#peekBytes(offset, length, loose?)]; its first parameter is not
    read by the body. *)
Definition peekBytes (r : t) (offset_ : nat) (length_ : nat) (loose : bool)
  : outcome (list byte) :=
  let alignedLength := aligned length_ in
  if bool_decide (length (data r) < offset r + alignedLength) then
    if allowLoose r && loose
       && bool_decide (offset r + length_ ≤ length (data r))
    then Return (u8slice (data r) (offset r) (offset r + length_))
    else Throw (EthersError "data out-of-bounds" "BUFFER_OVERRUN"
                  (OverrunInfo (getBytesCopy (data r)) (length (data r))
                               (offset r + alignedLength)))
  else Return (u8slice (data r) (offset r) (offset r + alignedLength)).

(** [subReader(offset)] *)
Definition subReader (r : t) (offset_ : nat) : t :=
  new (u8slice (data r) (offset r + offset_) (length (data r))) (allowLoose r).

(** [readBytes(length, loose?)] *)
Definition readBytes (r : t) (length_ : nat) (loose : bool)
  : outcome (list byte) * t :=
  match peekBytes r 0 length_ loose with
  | Return bytes =>
      (Return (u8slice bytes 0 length_),
       mk (allowLoose r) (data r) (offset r + length bytes))
  | Throw e => (Throw e, r)
  end.

(** [readValue()] *)
Definition readValue (r : t) : outcome N * t :=
  let '(bytes, r') := readBytes r WordSize false in
  (toBigInt <$> bytes, r').

End Reader.

(** ** Predicates of the statements *)

(** The three conditions under which [#peekBytes] lets a read past the
    aligned end through. *)
Definition loose_fits (r : Reader.t) (length_ : nat) (loose : bool) : Prop :=
  Reader.allowLoose r = true ∧ loose = true
  ∧ Reader.offset r + length_ ≤ length (Reader.data r).

Global Instance loose_fits_dec r length_ loose :
  Decision (loose_fits r length_ loose).
Proof. unfold loose_fits. apply _. Defined.

(** The invariant of a writer: the running length is the length of what
    [get data()] concatenates. *)
Definition length_ok (w : Writer.t) : Prop :=
  Writer.dataLength w = list_sum (map length (Writer.data w)).

(** What every reachable session satisfies: the writer's length is right
    and every closure handed out points at a chunk of one word. *)
Definition session_inv (s : Session.state) : Prop :=
  length_ok (Session.writer s)
  ∧ ∀ u, u ∈ Session.updaters s →
      ∃ chunk,
        Writer.data (Session.writer s) !! Writer.captured_offset u = Some chunk
        ∧ length chunk = WordSize.

(** How often [name] is among the [names]. *)
Definition occ (name : string) (names : list (option string)) : nat :=
  length (filter (λ x, x = Some name) names).

(** No name is at two places of [names]. *)
Definition names_unique (names : list (option string)) : Prop :=
  ∀ i j name,
    names !! i = Some (Some name) → names !! j = Some (Some name) → i = j.

(** Slot [i] holds the first captured error of [items]. *)
Definition first_error (items : list value) (i : nat) (e : value) : Prop :=
  items !! i = Some e ∧ instanceofError e = true
  ∧ ∀ j v, j < i → items !! j = Some v → instanceofError v = false.

(** The elements of [l] from index [start] up to index [end_]. *)
Definition sub_range {A} (l : list A) (start end_ : Z) : list A :=
  take (Z.to_nat (end_ - start)) (drop (Z.to_nat start) l).

(** Reading [object] along [path] throws [e] at the last key: the keys
    before it are own indices whose read returns, the last one is an own
    index whose read throws. *)
Inductive raises_at : value → list string → exn → Prop :=
| raises_here wrap items names index e :
    index < length items →
    Result.get (Result.mk wrap items names) index = Throw e →
    raises_at (VResult wrap items names) [show index] e
| raises_below wrap items names index child path e :
    index < length items →
    Result.get (Result.mk wrap items names) index = Return child →
    raises_at child path e →
    raises_at (VResult wrap items names) (show index :: path) e.

(** No read inside [v] throws. *)
Fixpoint no_deferred (v : value) : bool :=
  match v with
  | VResult wrap items _ =>
      forallb (λ child,
                 negb (wrap && instanceofError child) && no_deferred child)
              items
  | _ => true
  end.

(** The entries that the sweep is to find below [object], in its order. *)
Definition collect_loop (rec : list string → value → list error_entry)
    (path : list string) (wrap : bool) :=
  fix loop (index : nat) (l : list value) {struct l} : list error_entry :=
    match l with
    | [] => []
    | child :: rest =>
        match get_element wrap index child with
        | Throw error => [ErrorEntry (path ++ [show index]) error]
        | Return _ => rec (path ++ [show index]) child
        end ++ loop (S index) rest
    end.

Fixpoint collect (path : list string) (object : value) : list error_entry :=
  match object with
  | VResult wrap items _ => collect_loop collect path wrap 0 items
  | _ => []
  end.

(** Induction on a value that reaches below the slots of a Result. *)
Section value_induction.
Variable P : value → Prop.
Hypothesis Pundefined : P VUndefined.
Hypothesis Pbigint : ∀ n, P (VBigInt n).
Hypothesis Pstring : ∀ s, P (VString s).
Hypothesis Pbytes : ∀ bs, P (VBytes bs).
Hypothesis Perror : ∀ message error, P error → P (VError message error).
Hypothesis Presult :
  ∀ wrap items names, Forall P items → P (VResult wrap items names).

Fixpoint value_nested_ind (v : value) : P v :=
  match v with
  | VUndefined => Pundefined
  | VBigInt n => Pbigint n
  | VString s => Pstring s
  | VBytes bs => Pbytes bs
  | VError message error => Perror message error (value_nested_ind error)
  | VResult wrap items names =>
      Presult wrap items names
        ((fix slots (l : list value) : Forall P l :=
            match l with
            | [] => @List.Forall_nil _ P
            | child :: rest =>
                @List.Forall_cons _ P child rest (value_nested_ind child)
                  (slots rest)
            end) items)
  end.

End value_induction.

(** ** Sessions with a reader *)

(** A caller's reads on one reader, in order; a read that throws is caught
    and the caller goes on with the reader as the read left it. *)
Module ReaderSession.

Inductive call : Type :=
| ReadBytes (length_ : nat) (loose : bool)
| ReadValue.

Definition step (r : Reader.t) (c : call) : Reader.t :=
  match c with
  | ReadBytes length_ loose => (Reader.readBytes r length_ loose).2
  | ReadValue => (Reader.readValue r).2
  end.

Definition run (r : Reader.t) (calls : list call) : Reader.t :=
  foldl step r calls.

(** No call of the session asks for a loose read. *)
Definition strict (c : call) : Prop :=
  match c with
  | ReadBytes _ loose => loose = false
  | ReadValue => True
  end.

End ReaderSession.

(** ** Callers of the writer and of the reader *)

(** [readValue()] called [n] times in a row, the values collected. *)
Fixpoint readValues (r : Reader.t) (n : nat) : outcome (list N) * Reader.t :=
  match n with
  | O => (Return [], r)
  | S n' =>
      match Reader.readValue r with
      | (Return v, r') =>
          let '(rest, r'') := readValues r' n' in
          ((λ vs, v :: vs) <$> rest, r'')
      | (Throw e, r') => (Throw e, r')
      end
  end.

(** A call that appends a writer appends whole words. *)
Definition appends_words (c : Session.call) : Prop :=
  match c with
  | Session.AppendWriter other =>
      length (Writer.get_data other) `mod` WordSize = 0
  | _ => True
  end.

(** The closure [u] when its writer came to stand behind [shift] chunks
    of another one. *)
Definition shift_updater (shift : nat) (u : Writer.updater) : Writer.updater :=
  Writer.Updater (shift + Writer.captured_offset u).

(** ** Result: toObject *)

Module ResultObject.

(** How a call of [toObject()] ends: with the object, with the error of
    [assert(false, message, "UNSUPPORTED_OPERATION", { operation })], or
    with what [getValue] threw. *)
Inductive result : Type :=
| Object (entries : gmap string value)
| Unsupported (message : string) (operation : string)
| Raised (e : exn).

Section toObject.

(** [name in {}]: the names that an empty object inherits from
    [Object.prototype]. *)
Variable inherited : string → bool.

(** [name in accum] *)
Definition has (accum : gmap string value) (name : string) : bool :=
  inherited name || bool_decide (is_Some (accum !! name)).

(** The [reduce] of [toObject] over [#names], from [index] on. The message
    of the assertion is an ordinary string literal, not a template: its
    [${ index }] stays as written. *)
Fixpoint reduce (r : Result.t) (index : nat) (names : list (option string))
    (accum : gmap string value) : result :=
  match names with
  | [] => Object accum
  | None :: _ => Unsupported "value at index ${ index } unnamed" "toObject()"
  | Some name :: rest =>
      if has accum name then reduce r (S index) rest accum
      else
        match Result.getValue r name with
        | Return v => reduce r (S index) rest (<[name := v]> accum)
        | Throw e => Raised e
        end
  end.

(** [toObject()] *)
Definition toObject (r : Result.t) : result :=
  reduce r 0 (Result.names r) ∅.

End toObject.

End ResultObject.

(** ** Predicates of the further statements *)

(** The indices that [filter] keeps: those whose element the callback
    accepts. *)
Definition kept_indices (callback : value → nat → bool) (r : Result.t)
  : list nat :=
  filter (λ i, callback (Result.raw r i) i = true)
         (seq 0 (length (Result.items r))).

(** [this.#names[i]] for an index inside the array. *)
Definition name_at (r : Result.t) (i : nat) : option string :=
  default None (Result.names r !! i).

(** The value of the first slot named [name], [undefined] without one:
    what [getValue] reads before it looks for a captured error. *)
Definition named_value (r : Result.t) (name : string) : value :=
  match Result.indexOf (Result.names r) name with
  | Some index => Result.raw r index
  | None => VUndefined
  end.

(** What [toObject] has put into its object once it is past the names
    [seen]: the value of each name seen that an empty object does not
    inherit. *)
Definition object_of (inherited : string → bool) (r : Result.t)
    (seen : list (option string)) (accum : gmap string value) : Prop :=
  ∀ name,
    accum !! name
    = if inherited name then None
      else if decide (Some name ∈ seen) then Some (named_value r name)
           else None.

(** The names that an empty object inherits from [Object.prototype] in
    the engines the library runs on; the [inherited] of the examples. *)
Definition Object_prototype_has (name : string) : bool :=
  bool_decide (name ∈ ["constructor"; "hasOwnProperty"; "isPrototypeOf";
                       "propertyIsEnumerable"; "toLocaleString"; "toString";
                       "valueOf"; "__proto__"; "__defineGetter__";
                       "__defineSetter__"; "__lookupGetter__";
                       "__lookupSetter__"]).

(** ** ContractFactory *)

Module ContractFactory.

Section factory.

(** [this.interface.deploy.inputs.length] and [this.bytecode]. *)
Variable inputs : nat.
Variable bytecode : list byte.

(** [copyOverrides] and [resolveArgs] of [contract.js] and
    [this.interface.encodeDeploy], none of them among the sources: what each
    returns, or throws, is left open. *)
Variable copyOverrides : value → outcome (gmap string value).
Variable resolveArgs : list value → outcome (list value).
Variable encodeDeploy : list value → outcome (list byte).

(** [async getDeployTransaction(...args)]; the outcome is how the promise
    settles. [args.pop()] takes the last argument off [args]. *)
Definition getDeployTransaction (args : list value)
  : outcome (gmap string value) :=
  '(overrides, args) ←
    (if bool_decide (inputs + 1 = length args)
     then overrides ← copyOverrides (default VUndefined (last args));
          Return (overrides, removelast args)
     else Return (∅, args));
  if bool_decide (inputs ≠ length args)
  then Throw (JsError "incorrect number of arguments to constructor" VUndefined)
  else
    resolvedArgs ← resolveArgs args;
    encoded ← encodeDeploy resolvedArgs;
    let data := concat [bytecode; encoded] in
    Return (<["data" := VBytes data]> overrides).

End factory.

End ContractFactory.

(** * Properties *)

(** ** Words and alignment *)

Lemma aligned_bounds (n : nat) :
  n ≤ aligned n < n + WordSize ∧ aligned n `mod` WordSize = 0.
Proof.
  unfold aligned, WordSize. simpl Nat.sub.
  pose proof (Nat.div_mod_eq (n + 31) 32) as Hdm.
  pose proof (Nat.mod_upper_bound (n + 31) 32 ltac:(lia)) as Hlt.
  split; [lia |].
  apply Nat.Div0.mod_mul.
Qed.

Lemma aligned_least (n m : nat) :
  n ≤ m → m `mod` WordSize = 0 → aligned n ≤ m.
Proof.
  intros Hle Hm.
  destruct (aligned_bounds n) as [[_ Hub] Hmod].
  pose proof (Nat.div_mod_eq m WordSize) as Em.
  pose proof (Nat.div_mod_eq (aligned n) WordSize) as Ea.
  rewrite Hm in Em. rewrite Hmod in Ea.
  unfold WordSize in *.
  destruct (decide (aligned n ≤ m)) as [|Hgt]; [done |].
  assert (m `div` 32 < aligned n `div` 32) by nia.
  nia.
Qed.

Lemma aligned_mod (n : nat) :
  aligned n = if decide (n `mod` WordSize = 0) then n
              else n + (WordSize - n `mod` WordSize).
Proof.
  destruct (aligned_bounds n) as [[Hlb Hub] Hmod].
  pose proof (Nat.div_mod_eq n WordSize) as En.
  pose proof (Nat.div_mod_eq (aligned n) WordSize) as Ea.
  pose proof (Nat.mod_upper_bound n WordSize ltac:(unfold WordSize; lia)) as Hlt.
  rewrite Hmod in Ea. unfold WordSize in *.
  case_decide; nia.
Qed.

Lemma length_Padding_drop (k : nat) :
  length (drop k Padding) = WordSize - k.
Proof. unfold Padding. by rewrite length_drop, length_replicate. Qed.

Lemma length_u8slice (l : list byte) (a b : nat) :
  b ≤ length l → length (u8slice l a b) = b - a.
Proof. intros Hb. unfold u8slice. rewrite length_take, length_drop. lia. Qed.

(** ** Reader *)

Section reader.
Import Reader.

Lemma peekBytes_past_end_loose r o length_ loose :
  length (data r) < offset r + aligned length_ →
  loose_fits r length_ loose →
  peekBytes r o length_ loose
  = Return (u8slice (data r) (offset r) (offset r + length_)).
Proof.
  intros Hover (Ha & Hl & Hfit). unfold peekBytes.
  rewrite bool_decide_eq_true_2 by done.
  rewrite Ha, Hl. simpl.
  by rewrite bool_decide_eq_true_2.
Qed.

Lemma peekBytes_past_end_strict r o length_ loose :
  length (data r) < offset r + aligned length_ →
  ¬ loose_fits r length_ loose →
  peekBytes r o length_ loose
  = Throw (EthersError "data out-of-bounds" "BUFFER_OVERRUN"
             (OverrunInfo (data r) (length (data r))
                          (offset r + aligned length_))).
Proof.
  intros Hover Hno. unfold peekBytes.
  rewrite bool_decide_eq_true_2 by done.
  destruct (allowLoose r) eqn:Ha, loose eqn:Hl; simpl; try done.
  case_bool_decide; [| done].
  exfalso. apply Hno. by repeat split.
Qed.

Lemma readBytes_cursor_bound r length_ loose bytes r' :
  offset r ≤ length (data r) →
  readBytes r length_ loose = (Return bytes, r') →
  offset r' ≤ length (data r') ∧ data r' = data r.
Proof.
  intros Hinv. unfold readBytes, peekBytes.
  repeat case_bool_decide; destruct (allowLoose r), loose; simpl;
    intros [= <- <-]; simpl; split; try done;
    unfold u8slice; rewrite length_take, length_drop; lia.
Qed.

End reader.

(** C3. A [readBytes(length, loose)] whose aligned length runs past the end
    of the buffer succeeds exactly when the reader allows loose reads, the
    call asks for one and the unaligned length still fits; it then returns
    the [length] bytes at the cursor and moves the cursor by [length].
    Otherwise it throws BUFFER_OVERRUN with the buffer, its length and the
    offset cursor + aligned length, and the reader is as before. *)
Theorem readBytes_past_end (r : Reader.t) (length_ : nat) (loose : bool) :
  length (Reader.data r) < Reader.offset r + aligned length_ →
  ((∃ bytes r', Reader.readBytes r length_ loose = (Return bytes, r'))
     ↔ loose_fits r length_ loose)
  ∧ (loose_fits r length_ loose →
     ∃ bytes,
       Reader.readBytes r length_ loose
       = (Return bytes,
          Reader.mk (Reader.allowLoose r) (Reader.data r)
                    (Reader.offset r + length_))
       ∧ length bytes = length_
       ∧ bytes = take length_ (drop (Reader.offset r) (Reader.data r)))
  ∧ (¬ loose_fits r length_ loose →
     Reader.readBytes r length_ loose
     = (Throw (EthersError "data out-of-bounds" "BUFFER_OVERRUN"
                 (OverrunInfo (Reader.data r) (length (Reader.data r))
                              (Reader.offset r + aligned length_))),
        r)).
Proof.
  intros Hover.
  assert (Hyes : loose_fits r length_ loose →
     ∃ bytes,
       Reader.readBytes r length_ loose
       = (Return bytes,
          Reader.mk (Reader.allowLoose r) (Reader.data r)
                    (Reader.offset r + length_))
       ∧ length bytes = length_
       ∧ bytes = take length_ (drop (Reader.offset r) (Reader.data r))).
  { intros Hfit. pose proof Hfit as (_ & _ & Hle).
    exists (take length_ (drop (Reader.offset r) (Reader.data r))).
    unfold Reader.readBytes.
    rewrite (peekBytes_past_end_loose _ _ _ _ Hover Hfit).
    assert (Hlen : length (u8slice (Reader.data r) (Reader.offset r)
                             (Reader.offset r + length_)) = length_).
    { rewrite length_u8slice by done. lia. }
    rewrite Hlen. split; [| split].
    - f_equal. f_equal. unfold u8slice.
      replace (Reader.offset r + length_ - Reader.offset r) with length_ by lia.
      replace (length_ - 0) with length_ by lia.
      rewrite drop_0. apply take_ge.
      rewrite length_take, length_drop. lia.
    - rewrite length_take, length_drop. lia.
    - done. }
  assert (Hno : ¬ loose_fits r length_ loose →
     Reader.readBytes r length_ loose
     = (Throw (EthersError "data out-of-bounds" "BUFFER_OVERRUN"
                 (OverrunInfo (Reader.data r) (length (Reader.data r))
                              (Reader.offset r + aligned length_))),
        r)).
  { intros Hnfit. unfold Reader.readBytes.
    by rewrite (peekBytes_past_end_strict _ _ _ _ Hover Hnfit). }
  split; [| by split].
  split.
  - intros (bytes & r' & Hread).
    destruct (decide (loose_fits r length_ loose)) as [Hfit | Hnfit]; [done |].
    rewrite (Hno Hnfit) in Hread. discriminate.
  - intros Hfit. destruct (Hyes Hfit) as (bytes & Hread & _). eauto.
Qed.

(** The boundary that the specification names: three bytes left and a
    loose read of three bytes. A loose reader returns them; a strict reader
    on the same input throws. *)
Lemma readBytes_past_end_witness :
  let r := Reader.new [x01; x02; x03] true in
  let strict := Reader.new [x01; x02; x03] false in
  length (Reader.data r) < Reader.offset r + aligned 3
  ∧ Reader.readBytes r 3 true
    = (Return [x01; x02; x03], Reader.mk true [x01; x02; x03] 3)
  ∧ Reader.readBytes strict 3 true
    = (Throw (EthersError "data out-of-bounds" "BUFFER_OVERRUN"
                (OverrunInfo [x01; x02; x03] 3 32)),
       strict).
Proof.
  intros r strict.
  assert (Hover : length (Reader.data r) < Reader.offset r + aligned 3)
    by (vm_compute; lia).
  split; [exact Hover |]. split.
  - destruct (readBytes_past_end r 3 true Hover) as (_ & Hyes & _).
    destruct Hyes as (bytes & Hread & _ & Hbytes).
    + unfold loose_fits. vm_compute. repeat split; lia.
    + rewrite Hread, Hbytes. reflexivity.
  - destruct (readBytes_past_end strict 3 true Hover) as (_ & _ & Hno).
    rewrite Hno; [reflexivity |].
    intros (Hallow & _). discriminate.
Defined.

(** ** Big-endian bytes *)

Section big_endian.
Local Open Scope N_scope.

Lemma byte_of_N_to_N (n : N) : Byte.to_N (byte_of_N n) = n `mod` 256.
Proof.
  unfold byte_of_N.
  destruct (Byte.of_N (n `mod` 256)) as [b|] eqn:Hb; simpl.
  - by apply Byte.to_of_N.
  - apply Byte.of_N_None_iff in Hb.
    pose proof (N.mod_upper_bound n 256 ltac:(done)). lia.
Qed.

Lemma toBigInt_from (a : N) (l : list byte) :
  foldl (λ acc b, acc * 256 + Byte.to_N b) a l
  = a * 256 ^ N.of_nat (length l) + toBigInt l.
Proof.
  unfold toBigInt. revert a.
  induction l as [| b l IH]; intros a.
  - simpl. lia.
  - cbn [foldl length]. rewrite IH, (IH (0 * 256 + _)).
    rewrite Nat2N.inj_succ, N.pow_succ_r'. lia.
Qed.

Lemma toBigInt_cons (b : byte) (l : list byte) :
  toBigInt (b :: l) = Byte.to_N b * 256 ^ N.of_nat (length l) + toBigInt l.
Proof. unfold toBigInt at 1. cbn [foldl]. by rewrite toBigInt_from. Qed.

Lemma toBigInt_app (l k : list byte) :
  toBigInt (l ++ k) = toBigInt l * 256 ^ N.of_nat (length k) + toBigInt k.
Proof.
  unfold toBigInt at 1. rewrite foldl_app.
  by rewrite toBigInt_from.
Qed.

Lemma toBigInt_zeros (k : nat) : toBigInt (replicate k x00) = 0.
Proof.
  induction k as [| k IH]; [done |].
  cbn [replicate]. rewrite toBigInt_cons, IH.
  change (Byte.to_N x00) with 0. by rewrite N.mul_0_l.
Qed.

Lemma toBigInt_bound (l : list byte) : toBigInt l < 256 ^ N.of_nat (length l).
Proof.
  induction l as [| b l IH]; [done |].
  rewrite toBigInt_cons. cbn [length].
  rewrite Nat2N.inj_succ, N.pow_succ_r'.
  pose proof (Byte.to_N_bounded b). nia.
Qed.

Lemma length_be_digits_ge fuel n acc :
  (length acc ≤ length (be_digits fuel n acc))%nat.
Proof.
  revert n acc. induction fuel as [| fuel IH]; intros n acc; simpl; [done |].
  destruct (n =? 0); [done |].
  etransitivity; [| apply IH]. simpl. lia.
Qed.

(** With fuel enough, [be_digits] puts the digits of [n] in front of
    [acc]: read back, they give [n] shifted over [acc]. *)
Lemma toBigInt_be_digits fuel n acc :
  n < 256 ^ N.of_nat fuel →
  toBigInt (be_digits fuel n acc)
  = n * 256 ^ N.of_nat (length acc) + toBigInt acc.
Proof.
  revert n acc. induction fuel as [| fuel IH]; intros n acc Hn.
  - simpl in *. assert (n = 0) as -> by lia. lia.
  - cbn [be_digits]. destruct (N.eqb_spec n 0) as [-> | Hnz]; [lia |].
    rewrite Nat2N.inj_succ, N.pow_succ_r' in Hn.
    rewrite IH by (apply N.Div0.div_lt_upper_bound; lia).
    rewrite toBigInt_cons, byte_of_N_to_N. cbn [length].
    rewrite Nat2N.inj_succ, N.pow_succ_r'.
    pose proof (N.Div0.div_mod n 256). nia.
Qed.

(** ... and they are as many as [n] has base-256 digits. *)
Lemma length_be_digits fuel n acc (k : nat) :
  n < 256 ^ N.of_nat fuel →
  (length (be_digits fuel n acc) ≤ k + length acc)%nat ↔ n < 256 ^ N.of_nat k.
Proof.
  revert n acc k. induction fuel as [| fuel IH]; intros n acc k Hn.
  - simpl in *. assert (n = 0) as -> by lia.
    split; intros _; [| lia].
    apply N.neq_0_lt_0, N.pow_nonzero. done.
  - cbn [be_digits]. destruct (N.eqb_spec n 0) as [-> | Hnz].
    { split; intros _; [| lia]. apply N.neq_0_lt_0, N.pow_nonzero. done. }
    rewrite Nat2N.inj_succ, N.pow_succ_r' in Hn.
    assert (Hq : n `div` 256 < 256 ^ N.of_nat fuel)
      by (apply N.Div0.div_lt_upper_bound; lia).
    destruct k as [| k].
    + pose proof (length_be_digits_ge fuel (n `div` 256) (byte_of_N n :: acc)).
      simpl in *. split; lia.
    + specialize (IH (n `div` 256) (byte_of_N n :: acc) k Hq).
      cbn [length] in IH.
      rewrite Nat2N.inj_succ, N.pow_succ_r'.
      replace (S k + length acc)%nat with (k + S (length acc))%nat by lia.
      rewrite IH. pose proof (N.Div0.div_mod n 256).
      pose proof (N.mod_upper_bound n 256 ltac:(done)).
      split; intros; [nia |].
      apply N.Div0.div_lt_upper_bound. lia.
Qed.

Lemma toBeArray_fuel (value : N) :
  value < 256 ^ N.of_nat (N.to_nat (N.size value)).
Proof.
  rewrite N2Nat.id.
  eapply N.lt_le_trans; [apply N.size_gt |].
  apply N.pow_le_mono_l. lia.
Qed.

(** The model of [toBeArray] is read back by the model of [toBigInt]. *)
Lemma toBeArray_toBigInt (value : N) : toBigInt (toBeArray value) = value.
Proof.
  unfold toBeArray. rewrite toBigInt_be_digits by apply toBeArray_fuel.
  simpl. unfold toBigInt. simpl. lia.
Qed.

(** A value fits [k] bytes exactly when it is below [256 ^ k]. *)
Lemma length_toBeArray (value : N) (k : nat) :
  (length (toBeArray value) ≤ k)%nat ↔ value < 256 ^ N.of_nat k.
Proof.
  unfold toBeArray.
  rewrite <- (length_be_digits _ value [] k (toBeArray_fuel value)).
  simpl. by rewrite Nat.add_0_r.
Qed.

End big_endian.

(** ** The word of a value *)

Lemma getValue_fits (value : N) :
  length (toBeArray value) ≤ WordSize →
  getValue value
  = Return (replicate (WordSize - length (toBeArray value)) x00
              ++ toBeArray value).
Proof.
  intros Hle. unfold getValue, assert. cbv zeta.
  rewrite (bool_decide_eq_true_2 (length (toBeArray value) ≤ WordSize)) by done.
  cbn [mbind outcome_bind].
  f_equal. case_bool_decide as Hne.
  - unfold getBytesCopy. cbn [concat]. rewrite app_nil_r.
    rewrite Nat.mod_small by lia.
    unfold Padding. by rewrite drop_replicate.
  - rewrite Hne, Nat.sub_diag. done.
Qed.

Lemma getValue_overrun (value : N) :
  WordSize < length (toBeArray value) →
  getValue value
  = Throw (EthersError "value out-of-bounds" "BUFFER_OVERRUN"
             (OverrunInfo (toBeArray value) WordSize
                          (length (toBeArray value)))).
Proof.
  intros Hgt. unfold getValue, assert. cbv zeta.
  rewrite (bool_decide_eq_false_2 (length (toBeArray value) ≤ WordSize)) by lia.
  done.
Qed.

Lemma getValue_length (value : N) (bytes : list byte) :
  getValue value = Return bytes → length bytes = WordSize.
Proof.
  destruct (decide (length (toBeArray value) ≤ WordSize)) as [Hle | Hgt].
  - rewrite getValue_fits by done. intros [= <-].
    rewrite length_app, length_replicate. lia.
  - rewrite getValue_overrun by lia. discriminate.
Qed.

(** The word written for a value reads back as the value. *)
Lemma getValue_toBigInt (value : N) (bytes : list byte) :
  getValue value = Return bytes → toBigInt bytes = value.
Proof.
  destruct (decide (length (toBeArray value) ≤ WordSize)) as [Hle | Hgt].
  - rewrite getValue_fits by done. intros [= <-].
    rewrite toBigInt_app, toBigInt_zeros, toBeArray_toBigInt.
    by rewrite N.mul_0_l.
  - rewrite getValue_overrun by lia. discriminate.
Qed.

(** ** Writer *)

Section writer.
Import Writer.

Lemma writeData_length_ok w chunk :
  length_ok w → length_ok (writeData w chunk).2.
Proof.
  unfold length_ok, writeData. cbn [snd data dataLength]. intros ->.
  rewrite map_app, list_sum_app. simpl. lia.
Qed.

Lemma writeBytes_chunk w value :
  writeBytes w value
  = writeData w (value ++ replicate (aligned (List.length value)
                                     - List.length value) x00).
Proof.
  unfold writeBytes, getBytesCopy. f_equal.
  rewrite aligned_mod.
  pose proof (Nat.mod_upper_bound (List.length value) WordSize
                ltac:(unfold WordSize; lia)) as Hlt.
  case_bool_decide as Hne; case_decide as Hz; try lia.
  - cbn [concat]. rewrite app_nil_r. f_equal.
    unfold Padding. rewrite drop_replicate. f_equal. lia.
  - by rewrite Nat.sub_diag, app_nil_r.
Qed.

Lemma list_sum_insert (l : list (list byte)) (i : nat) (x y : list byte) :
  l !! i = Some y → List.length x = List.length y →
  list_sum (map List.length (<[i := x]> l)) = list_sum (map List.length l).
Proof.
  revert i. induction l as [| c l IH]; intros [| i] Hi Hxy; try done.
  - injection Hi as ->. simpl. lia.
  - simpl in *. by rewrite IH.
Qed.

Lemma update_length_ok u w value chunk :
  data w !! captured_offset u = Some chunk →
  List.length chunk = WordSize →
  length_ok w → length_ok (update u w value).2.
Proof.
  intros Hu Hc Hw. unfold update.
  destruct (getValue value) as [bytes |] eqn:Hv; [| done].
  unfold length_ok. cbn [snd data dataLength].
  rewrite (list_sum_insert _ _ _ chunk); [done.. |].
  rewrite Hc. by eapply getValue_length.
Qed.

End writer.

Module SessionFacts.
Import Writer Session.

Lemma inv_init : session_inv init.
Proof.
  split; [done |]. intros u Hu. cbn in Hu. by apply elem_of_nil in Hu.
Qed.

Lemma inv_writeData s chunk :
  session_inv s → session_inv (mk (writeData (writer s) chunk).2 (updaters s)).
Proof.
  intros [Hlen Hupd]. split; cbn [writer updaters].
  - by apply writeData_length_ok.
  - intros u Hu. destruct (Hupd u Hu) as (c & Hc & Hc32).
    exists c. split; [| done]. cbn [writeData snd data].
    by apply lookup_app_l_Some.
Qed.

Lemma inv_step s c : session_inv s → session_inv (step s c).
Proof.
  intros Hinv. destruct c as [other | value | value | | k value]; cbn [step].
  - by apply inv_writeData.
  - rewrite writeBytes_chunk. by apply inv_writeData.
  - unfold writeValue. destruct (getValue value) as [bytes |]; [| by destruct s].
    by apply (inv_writeData s bytes) in Hinv.
  - destruct Hinv as [Hlen Hupd].
    split; cbn [writeUpdatableValue writer updaters data dataLength].
    + unfold length_ok in *. cbn [data dataLength]. rewrite Hlen.
      rewrite map_app, list_sum_app.
      change (list_sum (map List.length [Padding])) with WordSize. done.
    + intros u [Hu | ->%list_elem_of_singleton]%elem_of_app.
      * destruct (Hupd u Hu) as (c & Hc & Hc32).
        exists c. split; [| done]. by apply lookup_app_l_Some.
      * exists Padding. split; [| done]. cbn [captured_offset].
        by rewrite lookup_app_r, Nat.sub_diag.
  - destruct (updaters s !! k) as [u |] eqn:Hk; [| done].
    destruct Hinv as [Hlen Hupd].
    assert (Hu : u ∈ updaters s) by (by eapply list_elem_of_lookup_2).
    destruct (Hupd u Hu) as (c & Hc & Hc32).
    split; cbn [writer updaters].
    + by eapply update_length_ok.
    + intros u' Hu'. destruct (Hupd u' Hu') as (c' & Hc' & Hc32').
      unfold update. destruct (getValue value) as [bytes |] eqn:Hv;
        cbn [snd data]; [| eauto].
      destruct (decide (captured_offset u = captured_offset u')) as [E | NE].
      * exists bytes. split; [| by eapply getValue_length].
        rewrite <- E. apply list_lookup_insert_eq.
        by eapply lookup_lt_Some.
      * exists c'. split; [| done]. by rewrite list_lookup_insert_ne.
Qed.

Lemma inv_run calls : session_inv (run calls).
Proof.
  unfold run. induction calls as [| c calls IH] using rev_ind.
  - apply inv_init.
  - rewrite foldl_snoc. by apply inv_step.
Qed.

(** The store of a closure is always inside the chunk array. *)
Lemma updaters_in_range calls u :
  u ∈ updaters (run calls) →
  captured_offset u < List.length (data (writer (run calls))).
Proof.
  intros Hu. destruct (inv_run calls) as [_ Hupd].
  destruct (Hupd u Hu) as (c & Hc & _). by eapply lookup_lt_Some.
Qed.

End SessionFacts.

(** C7. After any sequence of [appendWriter], [writeBytes], [writeValue]
    and [writeUpdatableValue] calls on a new writer, with calls of the
    returned closures in between (whatever their value, thrown or not), the
    length the writer reports is the sum of the lengths of its chunks, which
    is the length in bytes of its data. *)
Theorem writer_length_is_data_length (calls : list Session.call) :
  let w := Session.writer (Session.run calls) in
  Writer.length w = list_sum (map length (Writer.data w))
  ∧ Writer.length w = length (Writer.get_data w).
Proof.
  intros w. destruct (SessionFacts.inv_run calls) as [Hlen _].
  unfold Writer.get_data. rewrite length_concat. by split.
Qed.

(** C5. [writeBytes] appends its input padded on the right with zero
    bytes to the next multiple of the word size, returns that many bytes
    and adds as many to the length; [writeValue] of a value whose bytes fit
    one word returns the word size and adds it to the length. *)
Theorem write_is_word_aligned (w : Writer.t) :
  (∀ value : list byte,
     let n := aligned (length value) in
     Writer.writeBytes w value
     = (n, Writer.mk (Writer.data w ++ [value ++ replicate (n - length value) x00])
                     (Writer.length w + n)))
  ∧ (∀ value : N,
       length (toBeArray value) ≤ WordSize →
       ∃ word,
         Writer.writeValue w value
         = (Return WordSize,
            Writer.mk (Writer.data w ++ [word]) (Writer.length w + WordSize))
         ∧ length word = WordSize).
Proof.
  split.
  - intros value n. rewrite writeBytes_chunk. unfold Writer.writeData.
    assert (Hn : length (value ++ replicate (n - length value) x00) = n).
    { rewrite length_app, length_replicate.
      destruct (aligned_bounds (length value)) as [[Hle _] _]. subst n. lia. }
    fold n. by rewrite Hn.
  - intros value Hfit. unfold Writer.writeValue.
    rewrite getValue_fits by done.
    set (word := replicate _ _ ++ _).
    assert (Hword : length word = WordSize).
    { subst word. rewrite length_app, length_replicate. lia. }
    exists word. unfold Writer.writeData. by rewrite Hword.
Qed.

Lemma write_is_word_aligned_witness :
  length (toBeArray 258) ≤ WordSize
  ∧ (Writer.writeValue Writer.new 258).1 = Return WordSize.
Proof.
  assert (Hfit : length (toBeArray 258) ≤ WordSize) by (vm_compute; lia).
  split; [exact Hfit |].
  destruct (write_is_word_aligned Writer.new) as [_ Hvalue].
  destruct (Hvalue 258%N Hfit) as (word & -> & _). reflexivity.
Defined.

(** C10. Called with a value whose bytes exceed one word, the closure of
    [writeUpdatableValue] throws BUFFER_OVERRUN and the writer is as it
    was: right after the reservation the reserved chunk is still the word
    of zero bytes, and no chunk nor the length has changed. *)
Theorem update_overrun_leaves_writer (w : Writer.t) (value : N) :
  WordSize < length (toBeArray value) →
  let overrun := EthersError "value out-of-bounds" "BUFFER_OVERRUN"
                   (OverrunInfo (toBeArray value) WordSize
                                (length (toBeArray value))) in
  (∀ (u : Writer.updater) (w' : Writer.t),
     Writer.update u w' value = (Throw overrun, w'))
  ∧ (let '(u, w') := Writer.writeUpdatableValue w in
     Writer.update u w' value = (Throw overrun, w')
     ∧ Writer.data w' !! Writer.captured_offset u = Some (replicate WordSize x00)
     ∧ Writer.data w' = Writer.data w ++ [replicate WordSize x00]
     ∧ Writer.length w' = Writer.length w + WordSize).
Proof.
  intros Hbig overrun.
  assert (Hthrow : ∀ u w', Writer.update u w' value = (Throw overrun, w')).
  { intros u w'. unfold Writer.update. by rewrite getValue_overrun. }
  split; [done |].
  unfold Writer.writeUpdatableValue. repeat split; [done | | done..].
  cbn [Writer.captured_offset Writer.data].
  by rewrite lookup_app_r, Nat.sub_diag.
Qed.

Lemma update_overrun_leaves_writer_witness :
  WordSize < length (toBeArray (2 ^ 256))
  ∧ (let '(u, w') := Writer.writeUpdatableValue Writer.new in
     (Writer.update u w' (2 ^ 256)).2 = w').
Proof.
  assert (Hbig : WordSize < length (toBeArray (2 ^ 256))) by (vm_compute; lia).
  split; [exact Hbig |].
  destruct (update_overrun_leaves_writer Writer.new (2 ^ 256) Hbig) as [Hthrow _].
  cbn [Writer.writeUpdatableValue]. by rewrite Hthrow.
Defined.

(** ** Writing a value and reading it back *)

Lemma u8slice_all (l : list byte) :
  u8slice l 0 (length l) = l.
Proof. unfold u8slice. rewrite drop_0, Nat.sub_0_r. by apply take_ge. Qed.

(** A reader at the start of exactly one word reads that word. *)
Lemma readBytes_one_word (word : list byte) (allowLoose loose : bool) :
  length word = WordSize →
  Reader.readBytes (Reader.new word allowLoose) WordSize loose
  = (Return word, Reader.mk allowLoose word WordSize).
Proof.
  intros Hlen. unfold Reader.readBytes, Reader.peekBytes, Reader.new, getBytesCopy.
  cbn [Reader.data Reader.offset Reader.allowLoose].
  change (aligned WordSize) with WordSize.
  rewrite bool_decide_eq_false_2 by lia.
  rewrite Nat.add_0_l, <- Hlen, !u8slice_all. done.
Qed.

(** C4. A value whose bytes fit one word, written with [writeValue] into
    a new writer, is what [readValue] returns on a reader over the data of
    that writer. *)
Theorem writeValue_readValue (value : N) (allowLoose : bool) :
  length (toBeArray value) ≤ WordSize →
  ∃ w,
    Writer.writeValue Writer.new value = (Return WordSize, w)
    ∧ (Reader.readValue (Reader.new (Writer.get_data w) allowLoose)).1
      = Return value.
Proof.
  intros Hfit.
  destruct (getValue value) as [word |] eqn:Hword;
    [| by rewrite getValue_fits in Hword].
  pose proof (getValue_length _ _ Hword) as Hlen.
  pose proof (getValue_toBigInt _ _ Hword) as Hback.
  exists (Writer.mk [word] WordSize). split.
  - unfold Writer.writeValue, Writer.writeData. rewrite Hword.
    by rewrite Hlen.
  - unfold Writer.get_data, Reader.readValue. cbn [Writer.data concat].
    rewrite app_nil_r, readBytes_one_word by done.
    cbn [fst fmap outcome_fmap]. by rewrite Hback.
Qed.

Lemma writeValue_readValue_witness :
  length (toBeArray 258) ≤ WordSize
  ∧ ∃ w,
      Writer.writeValue Writer.new 258 = (Return WordSize, w)
      ∧ (Reader.readValue (Reader.new (Writer.get_data w) false)).1
        = Return 258%N.
Proof.
  assert (Hfit : length (toBeArray 258) ≤ WordSize) by (vm_compute; lia).
  split; [exact Hfit |].
  exact (writeValue_readValue 258 false Hfit).
Defined.

(** ** Result: names *)

Section names.
Import Result.
Implicit Types (names keys : list (option string)) (name : string).

Lemma occ_cons x names name :
  occ name (x :: names)
  = (if decide (x = Some name) then 1 else 0) + occ name names.
Proof.
  unfold occ. rewrite filter_cons. by case_decide.
Qed.

Lemma occ_app names1 names2 name :
  occ name (names1 ++ names2) = occ name names1 + occ name names2.
Proof. unfold occ. by rewrite filter_app, length_app. Qed.

Lemma occ_pos names name i :
  names !! i = Some (Some name) → 1 ≤ occ name names.
Proof.
  revert i. induction names as [| x names IH]; intros [| i] Hi; try done;
    rewrite occ_cons.
  - injection Hi as ->. rewrite decide_True by done. lia.
  - simpl in Hi. specialize (IH i Hi). lia.
Qed.

Lemma occ_two names name i j :
  i ≠ j → names !! i = Some (Some name) → names !! j = Some (Some name) →
  2 ≤ occ name names.
Proof.
  revert i j. induction names as [| x names IH]; intros [| i] [| j] Hne Hi Hj;
    try done; rewrite occ_cons; simpl in *.
  - injection Hi as ->. rewrite decide_True by done.
    pose proof (occ_pos _ _ _ Hj). lia.
  - injection Hj as ->. rewrite decide_True by done.
    pose proof (occ_pos _ _ _ Hi). lia.
  - assert (Hij : i ≠ j) by congruence. specialize (IH i j Hij Hi Hj). lia.
Qed.

Lemma occ_zero names name :
  occ name names = 0 ↔ Some name ∉ names.
Proof.
  induction names as [| x names IH].
  - split; [intros _; apply not_elem_of_nil | done].
  - rewrite occ_cons, not_elem_of_cons. case_decide as Hx.
    + split; [lia | intros [? _]; congruence].
    + rewrite <- IH.
      split; [intros; split; [congruence | lia] | intros [_ ?]; lia].
Qed.

(** A name that is once among the names is at one place only. *)
Lemma occ_one_unique names name i j :
  occ name names = 1 →
  names !! i = Some (Some name) → names !! j = Some (Some name) → i = j.
Proof.
  intros Hone Hi Hj. destruct (decide (i = j)) as [| Hne]; [done |].
  pose proof (occ_two _ _ _ _ Hne Hi Hj). lia.
Qed.

(** A name that is at one place only is once among the names. *)
Lemma unique_occ_one names name i :
  names !! i = Some (Some name) →
  (∀ j, names !! j = Some (Some name) → j = i) →
  occ name names = 1.
Proof.
  revert i. induction names as [| x names IH]; intros [| i] Hi Huniq; try done;
    rewrite occ_cons; simpl in *.
  - injection Hi as ->. rewrite decide_True by done.
    assert (occ name names = 0); [| lia].
    apply occ_zero. intros [j Hj]%list_elem_of_lookup_1.
    specialize (Huniq (S j) Hj). done.
  - rewrite decide_False.
    + simpl. apply (IH i Hi). intros j Hj.
      specialize (Huniq (S j) Hj). lia.
    + intros ->. specialize (Huniq 0 eq_refl). done.
Qed.

(** The map that the constructor folds holds, for each name, how often
    it is among the names. *)
Lemma nameCounts_from (accum : gmap string nat) names name :
  default 0 (foldl (λ accum key,
                      match key with
                      | Some s => <[s := default 0 (accum !! s) + 1]> accum
                      | None => accum
                      end) accum names !! name)
  = default 0 (accum !! name) + occ name names.
Proof.
  revert accum. induction names as [| x names IH]; intros accum.
  - unfold occ. simpl. lia.
  - cbn [foldl]. rewrite IH, occ_cons. destruct x as [s |].
    + destruct (decide (s = name)) as [-> | Hne].
      * rewrite lookup_insert_eq, decide_True by done. simpl. lia.
      * rewrite lookup_insert_ne by done.
        rewrite decide_False by congruence. lia.
    + rewrite decide_False by done. lia.
Qed.

Lemma nameCounts_occ names name :
  default 0 (nameCounts names !! name) = occ name names.
Proof.
  unfold nameCounts. rewrite nameCounts_from, lookup_empty. done.
Qed.

Lemma nameCounts_one names name :
  nameCounts names !! name = Some 1 ↔ occ name names = 1.
Proof.
  rewrite <- nameCounts_occ.
  destruct (nameCounts names !! name) as [n |]; simpl; split; congruence.
Qed.

Lemma length_uniqueNames items keys :
  length (uniqueNames items keys) = length items.
Proof. unfold uniqueNames. apply length_imap. Qed.

(** The name kept at a slot: the key given for it, if it is given once. *)
Lemma uniqueNames_lookup items keys i name :
  uniqueNames items keys !! i = Some (Some name)
  ↔ i < length items ∧ keys !! i = Some (Some name) ∧ occ name keys = 1.
Proof.
  unfold uniqueNames. rewrite list_lookup_imap.
  destruct (items !! i) as [item |] eqn:Hitem; simpl.
  - apply lookup_lt_Some in Hitem.
    destruct (keys !! i) as [[key |] |] eqn:Hkey.
    + case_decide as Hc; rewrite nameCounts_one in Hc.
      * split; [intros [= ->]; done | intros (_ & [= ->] & _); done].
      * split; [done | intros (_ & [= ->] & ?); done].
    + split; [done | intros (_ & ? & _); done].
    + split; [done | intros (_ & ? & _); done].
  - apply lookup_ge_None in Hitem. split; [done | lia].
Qed.

Lemma uniqueNames_unique items keys :
  names_unique (uniqueNames items keys).
Proof.
  intros i j name (_ & Hi & Hone)%uniqueNames_lookup
         (_ & Hj & _)%uniqueNames_lookup.
  by eapply occ_one_unique.
Qed.

Lemma indexOf_None names name :
  Some name ∉ names → indexOf names name = None.
Proof.
  induction names as [| x names IH]; [done |].
  intros [Hx Hrest]%not_elem_of_cons. cbn [indexOf].
  rewrite decide_False by done. by rewrite IH.
Qed.

Lemma indexOf_Some names name i :
  indexOf names name = Some i → names !! i = Some (Some name).
Proof.
  revert i. induction names as [| x names IH]; intros i; [done |].
  cbn [indexOf]. case_decide as Hx.
  - intros [= <-]. by rewrite Hx.
  - destruct (indexOf names name) as [k |]; [| done].
    intros [= <-]. by apply IH.
Qed.

Lemma indexOf_unique names name i :
  names_unique names → names !! i = Some (Some name) →
  indexOf names name = Some i.
Proof.
  intros Huniq Hi.
  destruct (indexOf names name) as [k |] eqn:Hk.
  - apply indexOf_Some in Hk. f_equal. by eapply Huniq.
  - exfalso. revert i Hi Hk. clear Huniq.
    induction names as [| x names IH]; intros [| i] Hi; try done;
      cbn [indexOf]; simpl in Hi.
    + injection Hi as ->. by rewrite decide_True.
    + case_decide; [done |]. specialize (IH i Hi).
      destruct (indexOf names name); [done |]. intros _. by apply IH.
Qed.

End names.

(** ** Result: access by index and by name *)

Section access.
Import Result.

Lemma get_range r index :
  wrap r = true → length (items r) ≤ index →
  get r index = Throw (JsRangeError "out of result range").
Proof.
  intros Hw Hge. unfold get. rewrite Hw.
  by rewrite bool_decide_eq_true_2.
Qed.

(** An own element read through the proxy is [get_element]. *)
Lemma get_own r index child :
  items r !! index = Some child →
  get r index = get_element (wrap r) index child.
Proof.
  intros Hi. pose proof (lookup_lt_Some _ _ _ Hi) as Hlt.
  unfold get, get_element, raw. rewrite Hi. cbn [default].
  destruct (wrap r); [| done].
  rewrite bool_decide_eq_false_2 by lia. done.
Qed.

Lemma get_stored r index v :
  items r !! index = Some v → instanceofError v = false →
  get r index = Return v.
Proof.
  intros Hi Hv. rewrite (get_own _ _ _ Hi). unfold get_element.
  by rewrite Hv, andb_false_r.
Qed.

(** By index, the deferred error is thrown with the captured error in
    its [.error]. *)
Lemma get_deferred r index message error :
  wrap r = true → items r !! index = Some (VError message error) →
  get r index = throwError ("index " ++ show index) (VError message error).
Proof.
  intros Hw Hi. rewrite (get_own _ _ _ Hi). unfold get_element.
  by rewrite Hw.
Qed.

(** By name, it is thrown with the [.error] of the captured error. *)
Lemma getValue_deferred r name index message error :
  names_unique (names r) → names r !! index = Some (Some name) →
  items r !! index = Some (VError message error) →
  getValue r name = throwError ("property " ++ JSON_stringify name) error.
Proof.
  intros Huniq Hn Hi. unfold getValue.
  rewrite (indexOf_unique _ _ _ Huniq Hn). unfold raw. by rewrite Hi.
Qed.

Lemma getValue_unknown r name :
  Some name ∉ names r → getValue r name = Return VUndefined.
Proof. intros Hn. unfold getValue. by rewrite indexOf_None. Qed.

Lemma forEach_check_clean index l :
  Forall (λ v, instanceofError v = false) l →
  forEach_check index l = Return tt.
Proof.
  intros Hl. revert index.
  induction Hl as [| v l Hv _ IH]; intros index; [done |].
  cbn [forEach_check]. by rewrite Hv.
Qed.

Lemma forEach_check_first index pre e post :
  Forall (λ v, instanceofError v = false) pre → instanceofError e = true →
  forEach_check index (pre ++ e :: post)
  = throwError ("index " ++ show (index + length pre)) e.
Proof.
  intros Hpre He. revert index.
  induction Hpre as [| v l Hv _ IH]; intros index; cbn [forEach_check app].
  - by rewrite He, Nat.add_0_r.
  - rewrite Hv, IH. cbn [length]. do 3 f_equal. lia.
Qed.

(** [toArray] on a Result with no captured error: an array of one
    element, the Result object. *)
Lemma toArray_clean r :
  Forall (λ v, instanceofError v = false) (items r) →
  toArray r = Return [to_value (target r)].
Proof.
  intros Hclean. unfold toArray. by rewrite forEach_check_clean.
Qed.

(** [toArray] throws at the first captured error. *)
Lemma toArray_first_error r pre e post :
  items r = pre ++ e :: post →
  Forall (λ v, instanceofError v = false) pre → instanceofError e = true →
  toArray r = throwError ("index " ++ show (length pre)) e.
Proof.
  intros Hitems Hpre He. unfold toArray.
  by rewrite Hitems, forEach_check_first.
Qed.

End access.

(** C1. [toArray()] on the wrapped Result of the two values [1n] and
    [2n], which holds no captured error, returns an array of one element,
    the Result object itself, where the specification has the array [[1n, 2n]]. *)
Theorem toArray_returns_result_in_array :
  let r := Result.fromItems [VBigInt 1; VBigInt 2] None in
  Result.toArray r = Return [VResult false [VBigInt 1; VBigInt 2] [None; None]]
  ∧ Result.toArray r ≠ Return (Result.items r)
  ∧ length [VResult false [VBigInt 1; VBigInt 2] [None; None]] = 1
  ∧ length (Result.items r) = 2.
Proof.
  intros r.
  assert (Hrun : Result.toArray r
                 = Return [VResult false [VBigInt 1; VBigInt 2] [None; None]]).
  { unfold r. by rewrite toArray_clean by (repeat constructor). }
  split; [exact Hrun |]. split; [| done].
  rewrite Hrun. discriminate.
Qed.

(** C2. On the wrapped Result whose slot 0, named [a], holds the
    captured error [boom], the access by index throws the wrapped error with
    [boom] in its [.error]; [getValue] throws it with the [.error] property
    of [boom], here [undefined], in place of [boom]. *)
Theorem getValue_attaches_error_of_error :
  let boom := VError "boom" VUndefined in
  let r := Result.fromItems [boom] (Some [Some "a"]) in
  Result.get r 0 = throwError "index 0" boom
  ∧ Result.getValue r "a"
    = throwError ("property " ++ JSON_stringify "a") VUndefined
  ∧ Result.getValue r "a"
    ≠ throwError ("property " ++ JSON_stringify "a") boom.
Proof.
  intros boom r. split; [| split].
  - by apply get_deferred.
  - apply (getValue_deferred r "a" 0 "boom" VUndefined); [| done..].
    apply uniqueNames_unique.
  - vm_compute. discriminate.
Qed.

(** C6, as the code has it. When a name is given at two places of the
    keys, [getValue] of that name is [undefined] on the Result that
    [fromItems] builds and neither place keeps the name, while the access by
    index to either place works as it does without names: it returns the
    stored value when that is not a captured error, and throws the deferred
    error of the slot when it is one. *)
Theorem duplicate_name_is_no_accessor
    (items : list value) (keys : list (option string)) (name : string)
    (i j : nat) :
  i ≠ j → keys !! i = Some (Some name) → keys !! j = Some (Some name) →
  let r := Result.fromItems items (Some keys) in
  Result.getValue r name = Return VUndefined
  ∧ Result.names r !! i ≠ Some (Some name)
  ∧ Result.names r !! j ≠ Some (Some name)
  ∧ (∀ k v, k = i ∨ k = j →
            items !! k = Some v → instanceofError v = false →
            Result.get r k = Return v)
  ∧ (∀ k v, k = i ∨ k = j →
            items !! k = Some v → instanceofError v = true →
            Result.get r k = throwError ("index " ++ show k) v).
Proof.
  intros Hne Hi Hj r.
  pose proof (occ_two _ _ _ _ Hne Hi Hj) as Htwo.
  assert (Hnot : ∀ k, Result.names r !! k ≠ Some (Some name)).
  { intros k (_ & _ & Hone)%uniqueNames_lookup. simpl in Hone. lia. }
  split; [| split; [done |]; split; [done |]; split].
  - apply getValue_unknown. intros [k Hk]%list_elem_of_lookup_1.
    by apply (Hnot k).
  - intros k v _ Hk Hv. by apply get_stored.
  - intros k v _ Hk Hv. rewrite (get_own r k v Hk).
    unfold get_element. by rewrite Hv.
Qed.

Lemma duplicate_name_is_no_accessor_witness :
  let boom := VError "boom" VUndefined in
  let items := [VBigInt 1; VBigInt 2; boom] in
  let keys := [Some "a"; Some "a"; Some "a"] in
  (0 ≠ 1 ∧ keys !! 0 = Some (Some "a") ∧ keys !! 1 = Some (Some "a"))
  ∧ (1 ≠ 2 ∧ keys !! 2 = Some (Some "a"))
  ∧ Result.getValue (Result.fromItems items (Some keys)) "a" = Return VUndefined
  ∧ Result.get (Result.fromItems items (Some keys)) 0 = Return (VBigInt 1)
  ∧ Result.get (Result.fromItems items (Some keys)) 1 = Return (VBigInt 2)
  ∧ Result.get (Result.fromItems items (Some keys)) 2 = throwError "index 2" boom.
Proof.
  intros boom items keys.
  assert (H01 : 0 ≠ 1) by lia.
  assert (H12 : 1 ≠ 2) by lia.
  assert (H0 : keys !! 0 = Some (Some "a")) by reflexivity.
  assert (H1 : keys !! 1 = Some (Some "a")) by reflexivity.
  assert (H2 : keys !! 2 = Some (Some "a")) by reflexivity.
  destruct (duplicate_name_is_no_accessor items keys "a" 0 1 H01 H0 H1)
    as (Hname & _ & _ & Hget & _).
  destruct (duplicate_name_is_no_accessor items keys "a" 1 2 H12 H1 H2)
    as (_ & _ & _ & _ & Hthrow).
  split; [done |]. split; [done |]. split; [exact Hname |]. split; [| split].
  - apply Hget; [by left | reflexivity | reflexivity].
  - apply Hget; [by right | reflexivity | reflexivity].
  - apply (Hthrow 2 boom); [by right | reflexivity | reflexivity].
Defined.

(** C6, as stated, fails: with the name [a] given for both slots and a
    captured error in slot 0, [getValue] of [a] is [undefined], but the
    access by index to slot 0 does not return the stored value: it throws
    the deferred error, as it does on any wrapped Result. *)
Lemma duplicate_name_index_access_throws :
  let boom := VError "boom" VUndefined in
  let items := [boom; VBigInt 2] in
  let keys := [Some "a"; Some "a"] in
  let r := Result.fromItems items (Some keys) in
  (0 ≠ 1 ∧ keys !! 0 = Some (Some "a") ∧ keys !! 1 = Some (Some "a"))
  ∧ items !! 0 = Some boom
  ∧ Result.getValue r "a" = Return VUndefined
  ∧ Result.get r 0 = throwError "index 0" boom
  ∧ Result.get r 0 ≠ Return boom.
Proof.
  intros boom items keys r.
  split; [by repeat split |]. split; [reflexivity |].
  split; [reflexivity |]. split; [reflexivity |].
  vm_compute. discriminate.
Qed.

(** ** Result: filter and slice *)

Section filter_slice.
Import Result.

Lemma first_error_exists items i e :
  items !! i = Some e → instanceofError e = true →
  ∃ j e', j ≤ i ∧ first_error items j e'.
Proof.
  revert i. induction items as [| v items IH]; intros i Hi He; [done |].
  destruct (instanceofError v) eqn:Hv.
  - exists 0, v. split; [lia |]. repeat split; [done.. |]. lia.
  - destruct i as [| i]; [simpl in Hi; congruence |].
    destruct (IH i Hi He) as (j & e' & Hle & Hj & He' & Hfirst).
    exists (S j), e'. split; [lia |]. repeat split; [done.. |].
    intros [| k] w Hk Hw; simpl in Hw; [congruence |].
    apply (Hfirst k); [lia | done].
Qed.

Lemma first_error_unique items i j e e' :
  first_error items i e → first_error items j e' → i = j ∧ e = e'.
Proof.
  intros (Hi & He & Hbefore) (Hj & He' & Hbefore').
  assert (i = j) as ->.
  { destruct (Nat.lt_trichotomy i j) as [Hlt | [-> | Hlt]]; [| done |].
    - specialize (Hbefore' i e Hlt Hi). congruence.
    - specialize (Hbefore j e' Hlt Hj). congruence. }
  split; [done | congruence].
Qed.

Lemma first_error_split items i e :
  first_error items i e →
  items = take i items ++ e :: drop (S i) items
  ∧ Forall (λ v, instanceofError v = false) (take i items)
  ∧ length (take i items) = i.
Proof.
  intros (Hi & He & Hbefore). split; [| split].
  - by rewrite take_drop_middle.
  - apply Forall_lookup. intros j v [Hv Hj]%lookup_take_Some. by eapply Hbefore.
  - rewrite length_take. apply lookup_lt_Some in Hi. lia.
Qed.

Lemma filter_loop_first callback r i pre e post result names_ :
  Forall (λ v, instanceofError v = false) pre → instanceofError e = true →
  filter_loop callback r i (pre ++ e :: post) result names_
  = throwError ("index " ++ show (i + length pre)) e.
Proof.
  intros Hpre He. revert i result names_.
  induction Hpre as [| v l Hv _ IH]; intros i result names_;
    cbn [filter_loop app].
  - by rewrite He, Nat.add_0_r.
  - rewrite Hv. cbn [length].
    replace (i + S (length l)) with (S i + length l) by lia.
    by destruct (callback v i).
Qed.

(** [filter] throws at the first captured error, whatever the callback
    answers. *)
Lemma filter_first_error r i e callback :
  first_error (items r) i e →
  filter r callback = throwError ("index " ++ show i) e.
Proof.
  intros Hfirst.
  destruct (first_error_split _ _ _ Hfirst) as (Hsplit & Hpre & Hlen).
  destruct Hfirst as (_ & He & _).
  unfold filter. revert Hsplit Hpre Hlen.
  generalize (take i (items r)) (drop (S i) (items r)).
  intros pre post -> Hpre <-.
  by rewrite filter_loop_first.
Qed.

Lemma names_unique_sub_range names start end_ :
  names_unique names → names_unique (sub_range names start end_).
Proof.
  intros Huniq i j name [Hi _]%lookup_take_Some [Hj _]%lookup_take_Some.
  rewrite lookup_drop in Hi, Hj.
  specialize (Huniq _ _ _ Hi Hj). lia.
Qed.

(** Names that are unique already are kept as they are by the
    constructor. *)
Lemma uniqueNames_id items names :
  length items = length names → names_unique names →
  uniqueNames items names = names.
Proof.
  intros Hlen Huniq. apply list_eq. intros i.
  unfold uniqueNames. rewrite list_lookup_imap.
  destruct (items !! i) as [item |] eqn:Hitem; simpl.
  - destruct (names !! i) as [[name |] |] eqn:Hname; [| done |].
    + rewrite decide_True; [done |].
      apply nameCounts_one. apply (unique_occ_one _ _ i Hname).
      intros j Hj. by eapply Huniq.
    + apply lookup_ge_None in Hname. apply lookup_lt_Some in Hitem. lia.
  - apply lookup_ge_None in Hitem. symmetry. apply lookup_ge_None. lia.
Qed.

(** Inside the array, the loop of [slice] collects the sub-range. *)
Lemma slice_items_in_range r (start end_ : Z) :
  (0 ≤ start ≤ end_)%Z → (end_ ≤ Z.of_nat (length (items r)))%Z →
  rawZ r <$> seqZ start (end_ - start) = sub_range (items r) start end_.
Proof.
  intros Hse Hend. apply list_eq. intros k.
  unfold sub_range. rewrite list_lookup_fmap, lookup_take, lookup_drop.
  case_decide as Hk.
  - rewrite lookup_seqZ_lt by lia. simpl. unfold rawZ, raw.
    rewrite bool_decide_eq_true_2 by lia.
    replace (Z.to_nat (start + Z.of_nat k)) with (Z.to_nat start + k) by lia.
    destruct (items r !! (Z.to_nat start + k)) as [v |] eqn:Hv; [done |].
    apply lookup_ge_None in Hv. lia.
  - by rewrite lookup_seqZ_ge by lia.
Qed.

Lemma slice_names_in_range r (start end_ : Z) :
  (0 ≤ start ≤ end_)%Z → (end_ ≤ Z.of_nat (length (names r)))%Z →
  nameZ r <$> seqZ start (end_ - start) = sub_range (names r) start end_.
Proof.
  intros Hse Hend. apply list_eq. intros k.
  unfold sub_range. rewrite list_lookup_fmap, lookup_take, lookup_drop.
  case_decide as Hk.
  - rewrite lookup_seqZ_lt by lia. simpl. unfold nameZ.
    rewrite bool_decide_eq_true_2 by lia.
    replace (Z.to_nat (start + Z.of_nat k)) with (Z.to_nat start + k) by lia.
    destruct (names r !! (Z.to_nat start + k)) as [v |] eqn:Hv; [done |].
    apply lookup_ge_None in Hv. lia.
  - by rewrite lookup_seqZ_ge by lia.
Qed.

Lemma length_sub_range {A} (l : list A) (start end_ : Z) :
  length (sub_range l start end_)
  = Z.to_nat (end_ - start) `min` (length l - Z.to_nat start).
Proof. unfold sub_range. by rewrite length_take, length_drop. Qed.

(** [slice] inside the array: a wrapped Result of the sub-range, with
    the names of the sub-range. *)
Lemma slice_in_range r (start end_ : Z) :
  length (names r) = length (items r) → names_unique (names r) →
  (0 ≤ start ≤ end_)%Z → (end_ ≤ Z.of_nat (length (items r)))%Z →
  slice r (Some start) (Some end_)
  = Return (mk true (sub_range (items r) start end_)
                    (sub_range (names r) start end_)).
Proof.
  intros Hlen Huniq Hse Hend. unfold slice, construct_guarded. simpl.
  rewrite slice_items_in_range, slice_names_in_range by lia.
  rewrite uniqueNames_id; [done | |].
  - rewrite !length_sub_range. lia.
  - by apply names_unique_sub_range.
Qed.

End filter_slice.

(** C8, as the code has it. On a wrapped Result with a captured error at
    slot [i], [filter] throws the deferred error of the first slot holding
    one, which is slot [i] when no slot before it holds one, whatever the
    callback answers; [slice] never throws and returns a wrapped Result,
    which for a range inside the array holds the values and the names of
    the range. *)
Theorem filter_throws_slice_wraps
    (items : list value) (keys : option (list (option string)))
    (i : nat) (e : value) :
  items !! i = Some e → instanceofError e = true →
  let r := Result.fromItems items keys in
  (∃ j e', j ≤ i ∧ first_error items j e'
           ∧ ∀ callback,
               Result.filter r callback = throwError ("index " ++ show j) e')
  ∧ (first_error items i e →
     ∀ callback, Result.filter r callback = throwError ("index " ++ show i) e)
  ∧ (∀ start end_ : option Z,
       ∃ r', Result.slice r start end_ = Return r' ∧ Result.wrap r' = true)
  ∧ (∀ start end_ : Z,
       (0 ≤ start ≤ end_)%Z → (end_ ≤ Z.of_nat (length items))%Z →
       Result.slice r (Some start) (Some end_)
       = Return (Result.mk true (sub_range items start end_)
                           (sub_range (Result.names r) start end_))).
Proof.
  intros Hi He r. split; [| split; [| split]].
  - destruct (first_error_exists _ _ _ Hi He) as (j & e' & Hle & Hfirst).
    exists j, e'. split; [done |]. split; [done |].
    intros callback. by apply filter_first_error.
  - intros Hfirst callback. by apply filter_first_error.
  - intros start end_. eexists. split; [reflexivity | done].
  - intros start end_ Hse Hend. apply (slice_in_range r); [| | done..].
    + apply length_uniqueNames.
    + apply uniqueNames_unique.
Qed.

Lemma filter_throws_slice_wraps_witness :
  let boom := VError "boom" VUndefined in
  let items := [VBigInt 1; boom; VBigInt 3] in
  (items !! 1 = Some boom ∧ instanceofError boom = true)
  ∧ Result.filter (Result.fromItems items None) (λ _ _, true)
    = throwError "index 1" boom
  ∧ Result.slice (Result.fromItems items None) (Some 1%Z) (Some 3%Z)
    = Return (Result.mk true [boom; VBigInt 3] [None; None]).
Proof.
  intros boom items.
  assert (Hi : items !! 1 = Some boom) by reflexivity.
  assert (He : instanceofError boom = true) by reflexivity.
  destruct (filter_throws_slice_wraps items None 1 boom Hi He)
    as (_ & Hfilter & _ & Hslice).
  split; [done |]. split.
  - apply Hfilter. split; [done |]. split; [done |].
    intros [| j] v Hj Hv; [| lia]. by injection Hv as <-.
  - rewrite Hslice; [reflexivity | lia | simpl; lia].
Defined.

(** C8, as stated, fails: the Result that [slice] returns over a range
    holding a captured error is not a raw one. It is wrapped, and reading
    the slot by index throws the deferred error. *)
Lemma slice_result_is_not_raw :
  let boom := VError "boom" VUndefined in
  let r := Result.fromItems [boom; VBigInt 1] None in
  ¬ (∃ r', Result.slice r (Some 0%Z) (Some 1%Z) = Return r'
           ∧ Result.wrap r' = false)
  ∧ ∃ r', Result.slice r (Some 0%Z) (Some 1%Z) = Return r'
          ∧ Result.get r' 0 = throwError "index 0" boom.
Proof.
  intros boom r. split.
  - intros (r' & Hslice & Hraw). vm_compute in Hslice.
    injection Hslice as <-. discriminate.
  - eexists. split; reflexivity.
Qed.

(** ** checkResultErrors *)

Section sweep.

Lemma show_inj (n m : nat) : show n = show m → n = m.
Proof.
  unfold show. intros Heq.
  assert (Hu : Some (Nat.to_uint n) = Some (Nat.to_uint m)).
  { by rewrite <- !NilEmpty.usu, Heq. }
  injection Hu as Hu.
  by rewrite <- (Unsigned.of_to n), <- (Unsigned.of_to m), Hu.
Qed.

Lemma get_element_Return wrap index child v :
  get_element wrap index child = Return v → v = child.
Proof.
  unfold get_element. destruct (wrap && instanceofError child); [done |].
  by intros [= <-].
Qed.

(** The sweep never throws, and pushes what [collect] lists. *)
Lemma checkErrors_collect object :
  ∀ path errors,
    checkErrors path object errors = (Return tt, errors ++ collect path object).
Proof.
  induction object as [| | | | |wrap items names IH] using value_nested_ind;
    intros path errors; try (cbn; by rewrite app_nil_r).
  cbn [checkErrors collect]. generalize 0 as index. revert errors.
  induction IH as [| child rest Hchild _ IHrest]; intros errors index;
    cbn [checkErrors_loop collect_loop].
  - by rewrite app_nil_r.
  - destruct (get_element wrap index child) as [v | error].
    + rewrite Hchild, IHrest. by rewrite app_assoc.
    + rewrite IHrest. by rewrite <- !app_assoc.
Qed.

Lemma collect_loop_app rec path wrap index l1 l2 :
  collect_loop rec path wrap index (l1 ++ l2)
  = collect_loop rec path wrap index l1
    ++ collect_loop rec path wrap (index + length l1) l2.
Proof.
  revert index. induction l1 as [| child l1 IH]; intros index;
    cbn [collect_loop app length].
  - by rewrite Nat.add_0_r.
  - rewrite IH, <- app_assoc. do 3 f_equal. lia.
Qed.

(** Below a value in which no read throws there is nothing to list. *)
Lemma collect_no_deferred object :
  ∀ path, no_deferred object = true → collect path object = [].
Proof.
  induction object as [| | | | |wrap items names IH] using value_nested_ind;
    intros path Hclean; try done.
  cbn [collect no_deferred] in *. generalize 0 as index.
  induction IH as [| child rest Hchild _ IHrest]; intros index; [done |].
  cbn [forallb] in Hclean.
  apply andb_prop in Hclean as [[Hget Hsub]%andb_prop Hrest].
  cbn [collect_loop]. unfold get_element.
  apply negb_true_iff in Hget. rewrite Hget.
  by rewrite Hchild, IHrest.
Qed.

Lemma collect_loop_valid path wrap index l :
  Forall (λ v, instanceofError v = false ∧ no_deferred v = true) l →
  collect_loop collect path wrap index l = [].
Proof.
  intros Hl. revert index.
  induction Hl as [| child rest [Hv Hclean] _ IH]; intros index; [done |].
  cbn [collect_loop]. unfold get_element.
  rewrite Hv, andb_false_r, IH. by rewrite collect_no_deferred.
Qed.

(** Every listed entry is a slot whose read throws. *)
Lemma collect_sound object :
  ∀ path entry,
    entry ∈ collect path object →
    ∃ p, entry_path entry = path ++ p
         ∧ raises_at object p (entry_error entry).
Proof.
  induction object as [| | | | |wrap items names IH] using value_nested_ind;
    intros path entry; try (cbn; by intros ?%elem_of_nil).
  cbn [collect].
  assert (Hloop : ∀ l pre,
    items = pre ++ l →
    entry ∈ collect_loop collect path wrap (length pre) l →
    ∃ p, entry_path entry = path ++ p
         ∧ raises_at (VResult wrap items names) p (entry_error entry)).
  { induction l as [| child rest IHrest]; intros pre Hitems;
      cbn [collect_loop]; [by intros ?%elem_of_nil |].
    assert (Hchild : items !! length pre = Some child).
    { by rewrite Hitems, list_lookup_middle. }
    pose proof (lookup_lt_Some _ _ _ Hchild) as Hlt.
    pose proof (get_own (Result.mk wrap items names) _ _ Hchild) as Hget.
    cbn [Result.wrap] in Hget.
    intros [Hblock | Hrest]%elem_of_app.
    - destruct (get_element wrap (length pre) child) as [v | error] eqn:Hel.
      + apply get_element_Return in Hel as Hv. subst v.
        rewrite Forall_lookup in IH.
        destruct (IH _ _ Hchild _ _ Hblock) as (p & Hp & Hraise).
        exists (show (length pre) :: p). split.
        * by rewrite Hp, <- app_assoc.
        * by eapply raises_below.
      + apply list_elem_of_singleton in Hblock as ->.
        exists [show (length pre)]. split; [done |].
        by apply raises_here.
    - apply (IHrest (pre ++ [child])).
      + by rewrite <- app_assoc.
      + rewrite length_app. cbn [length].
        by replace (length pre + 1) with (S (length pre)) by lia. }
  apply (Hloop items []). done.
Qed.

(** Every slot whose read throws is listed. *)
Lemma collect_loop_block path wrap index l k child entry :
  l !! k = Some child →
  entry ∈ match get_element wrap (index + k) child with
          | Throw error => [ErrorEntry (path ++ [show (index + k)]) error]
          | Return _ => collect (path ++ [show (index + k)]) child
          end →
  entry ∈ collect_loop collect path wrap index l.
Proof.
  revert index k. induction l as [| c l IH]; intros index [| k] Hk Hentry;
    try done; cbn [collect_loop]; apply elem_of_app.
  - injection Hk as ->. rewrite Nat.add_0_r in Hentry. by left.
  - right. apply (IH (S index) k); [done |].
    by replace (S index + k) with (index + S k) by lia.
Qed.

Lemma collect_complete object p e :
  raises_at object p e →
  ∀ path, ErrorEntry (path ++ p) e ∈ collect path object.
Proof.
  induction 1 as [wrap items names index e Hlt Hget
                 | wrap items names index child p e Hlt Hget _ IH];
    intros path; cbn [collect];
    destruct (lookup_lt_is_Some_2 items index Hlt) as [c Hc];
    rewrite (get_own (Result.mk wrap items names) _ _ Hc) in Hget;
    cbn [Result.wrap] in Hget;
    apply (collect_loop_block path wrap 0 items index c _ Hc);
    rewrite Nat.add_0_l, Hget.
  - by apply list_elem_of_singleton.
  - apply get_element_Return in Hget as ->.
    specialize (IH (path ++ [show index])). by rewrite <- app_assoc in IH.
Qed.

Lemma collect_loop_paths path wrap index l entry :
  entry ∈ collect_loop collect path wrap index l →
  ∃ i p, index ≤ i ∧ entry_path entry = path ++ show i :: p.
Proof.
  revert index. induction l as [| child rest IH]; intros index;
    cbn [collect_loop]; [by intros ?%elem_of_nil |].
  intros [Hblock | Hrest]%elem_of_app.
  - exists index. destruct (get_element wrap index child) as [v | error].
    + destruct (collect_sound _ _ _ Hblock) as (p & Hp & _).
      exists p. split; [done |]. by rewrite Hp, <- app_assoc.
    + apply list_elem_of_singleton in Hblock as ->. by exists [].
  - destruct (IH _ Hrest) as (i & p & Hle & Hp).
    exists i, p. split; [lia | done].
Qed.

(** No path is listed twice. *)
Lemma collect_NoDup object :
  ∀ path, NoDup (entry_path <$> collect path object).
Proof.
  induction object as [| | | | |wrap items names IH] using value_nested_ind;
    intros path; try (cbn; by apply NoDup_nil).
  cbn [collect]. generalize 0 as index.
  induction IH as [| child rest Hchild _ IHrest]; intros index;
    cbn [collect_loop]; [by apply NoDup_nil |].
  rewrite fmap_app. apply NoDup_app. split; [| split].
  - destruct (get_element wrap index child); [apply Hchild |].
    apply NoDup_singleton.
  - intros q [x [-> Hx]]%list_elem_of_fmap_1 [y [Hq Hy]]%list_elem_of_fmap_1.
    apply collect_loop_paths in Hy as (i & p & Hle & Hp).
    assert (Hx' : x ∈ collect_loop collect path wrap index [child]).
    { cbn [collect_loop]. by rewrite app_nil_r. }
    assert (∃ p', entry_path x = path ++ show index :: p') as [p' Hp'].
    { destruct (get_element wrap index child) as [v | error].
      - destruct (collect_sound _ _ _ Hx) as (p' & Hp' & _).
        exists p'. by rewrite Hp', <- app_assoc.
      - apply list_elem_of_singleton in Hx as ->. by exists []. }
    rewrite Hq, Hp in Hp'. apply app_inv_head in Hp'.
    injection Hp' as Hshow _. apply show_inj in Hshow. lia.
  - apply IHrest.
Qed.

End sweep.

(** C9. [checkResultErrors] returns, for every Result and whatever is
    nested in it: it lists an entry for a path exactly when reading the
    Result along that path throws, with the error thrown, and lists no path
    twice. On a wrapped Result whose slot [i] alone holds a captured error,
    no read throwing inside the other slots, it returns the one entry of
    path [[i]] with the deferred error of that slot. *)
Theorem checkResultErrors_lists_raising_slots (r : Result.t) :
  ∃ errors,
    checkResultErrors r = Return errors
    ∧ (∀ path e,
         ErrorEntry path e ∈ errors ↔ raises_at (Result.to_value r) path e)
    ∧ NoDup (entry_path <$> errors)
    ∧ (∀ i e,
         Result.wrap r = true →
         Result.items r !! i = Some e → instanceofError e = true →
         (∀ j v, j ≠ i → Result.items r !! j = Some v →
                 instanceofError v = false ∧ no_deferred v = true) →
         errors = [ErrorEntry [show i]
                     (JsError ("deferred error during ABI decoding triggered accessing "
                               ++ "index " ++ show i) e)]).
Proof.
  exists (collect [] (Result.to_value r)).
  split; [| split; [| split]].
  - unfold checkResultErrors. by rewrite checkErrors_collect.
  - intros path e. split.
    + intros (p & Hp & Hraise)%collect_sound. simpl in Hp. by subst p.
    + intros Hraise. apply (collect_complete _ _ _ Hraise []).
  - apply collect_NoDup.
  - intros i e Hwrap Hi He Hothers.
    destruct r as [wrap items names]. cbn in Hwrap, Hi, Hothers. subst wrap.
    cbn [Result.to_value Result.wrap Result.items Result.names collect].
    rewrite <- (take_drop_middle _ _ _ Hi) at 1.
    rewrite collect_loop_app. cbn [collect_loop].
    rewrite !collect_loop_valid.
    + unfold get_element. rewrite He. cbn [andb throwError app].
      rewrite length_take. apply lookup_lt_Some in Hi.
      replace (0 + i `min` length items) with i by lia. done.
    + apply Forall_lookup. intros j v Hj. rewrite lookup_drop in Hj.
      apply (Hothers (S i + j)); [lia | done].
    + apply Forall_lookup. intros j v [Hj Hlt]%lookup_take_Some.
      apply (Hothers j); [lia | done].
Qed.

Lemma checkResultErrors_lists_raising_slots_witness :
  let boom := VError "boom" VUndefined in
  let inner := Result.to_value (Result.fromItems [VString "x"] None) in
  let r := Result.fromItems [VBigInt 1; boom; inner] None in
  (Result.wrap r = true ∧ Result.items r !! 1 = Some boom
   ∧ instanceofError boom = true)
  ∧ checkResultErrors r
    = Return [ErrorEntry ["1"%string]
                (JsError "deferred error during ABI decoding triggered accessing index 1"
                         boom)].
Proof.
  intros boom inner r.
  assert (Hw : Result.wrap r = true) by reflexivity.
  assert (Hi : Result.items r !! 1 = Some boom) by reflexivity.
  assert (He : instanceofError boom = true) by reflexivity.
  split; [done |].
  destruct (checkResultErrors_lists_raising_slots r)
    as (errors & -> & _ & _ & Hone).
  rewrite (Hone 1 boom Hw Hi He); [reflexivity |].
  intros [| [| [| j]]] v Hne Hv; try done; vm_compute in Hv;
    injection Hv as <-; by split.
Defined.

(** * Further properties *)

(** ** Reader: reads inside the buffer, the cursor, sub-readers *)

Lemma aligned_ge (n : nat) : n ≤ aligned n.
Proof. apply aligned_bounds. Qed.

Lemma aligned_multiple (n : nat) : aligned n `mod` WordSize = 0.
Proof. apply aligned_bounds. Qed.

Lemma u8slice_take_drop (l : list byte) (a n : nat) :
  u8slice l a (a + n) = take n (drop a l).
Proof. unfold u8slice. f_equal. lia. Qed.

(** X1. A read whose aligned length is inside the buffer returns the
    [length] bytes at the cursor and moves the cursor by the aligned length,
    over the padding; neither loose flag matters. *)
Theorem readBytes_within (r : Reader.t) (length_ : nat) (loose : bool) :
  Reader.offset r + aligned length_ ≤ length (Reader.data r) →
  Reader.readBytes r length_ loose
  = (Return (take length_ (drop (Reader.offset r) (Reader.data r))),
     Reader.mk (Reader.allowLoose r) (Reader.data r)
               (Reader.offset r + aligned length_))
  ∧ length (take length_ (drop (Reader.offset r) (Reader.data r))) = length_.
Proof.
  intros Hfit. pose proof (aligned_ge length_) as Hge.
  unfold Reader.readBytes, Reader.peekBytes. cbv zeta.
  rewrite bool_decide_eq_false_2 by lia.
  rewrite u8slice_take_drop.
  assert (Hlen : length (take (aligned length_)
                           (drop (Reader.offset r) (Reader.data r)))
                 = aligned length_).
  { rewrite length_take, length_drop. lia. }
  rewrite Hlen. split.
  - f_equal. f_equal. unfold u8slice.
    rewrite drop_0, Nat.sub_0_r, take_take. f_equal. lia.
  - rewrite length_take, length_drop. lia.
Qed.

Lemma readBytes_within_witness :
  let r := Reader.new (replicate 31 x00 ++ [x07] ++ replicate 32 x01) true in
  Reader.offset r + aligned 5 ≤ length (Reader.data r)
  ∧ Reader.readBytes r 5 false
    = (Return (replicate 5 x00), Reader.mk true (Reader.data r) 32).
Proof.
  intros r.
  assert (Hfit : Reader.offset r + aligned 5 ≤ length (Reader.data r))
    by (vm_compute; lia).
  split; [exact Hfit |].
  destruct (readBytes_within r 5 false Hfit) as [-> _]. reflexivity.
Defined.

Section reader_sessions.
Import Reader ReaderSession.

Lemma readBytes_frame r length_ loose :
  data (readBytes r length_ loose).2 = data r
  ∧ allowLoose (readBytes r length_ loose).2 = allowLoose r
  ∧ offset r ≤ offset (readBytes r length_ loose).2.
Proof.
  unfold readBytes. destruct (peekBytes r 0 length_ loose); cbn; repeat split; lia.
Qed.

Lemma readBytes_cursor_inside r length_ loose :
  offset r ≤ length (data r) →
  offset (readBytes r length_ loose).2 ≤ length (data r).
Proof.
  intros Hinv.
  destruct (readBytes r length_ loose) as [[bytes | e] r'] eqn:Hread.
  - by destruct (readBytes_cursor_bound _ _ _ _ _ Hinv Hread) as [? <-].
  - revert Hread. unfold readBytes.
    destruct (peekBytes r 0 length_ loose); by intros [= _ <-].
Qed.

Lemma readBytes_cursor_aligned r length_ loose :
  allowLoose r = false ∨ loose = false →
  offset r `mod` WordSize = 0 →
  offset (readBytes r length_ loose).2 `mod` WordSize = 0.
Proof.
  intros Hstrict Hmod. unfold readBytes, peekBytes. cbv zeta.
  assert (Hno : allowLoose r && loose = false)
    by (destruct Hstrict as [-> | ->]; [done | apply andb_false_r]).
  rewrite Hno. cbn [andb].
  case_bool_decide as Hover; cbn [snd]; [done |].
  cbn [offset]. rewrite u8slice_take_drop, length_take, length_drop.
  replace (aligned length_ `min` (length (data r) - offset r))
    with (aligned length_) by lia.
  rewrite <- Nat.Div0.add_mod_idemp_l, Hmod. cbn [Nat.add].
  apply aligned_multiple.
Qed.

Lemma step_readValue r : step r ReadValue = step r (ReadBytes WordSize false).
Proof. unfold step, readValue. by destruct (readBytes r WordSize false). Qed.

End reader_sessions.

(** X2. Whatever reads are made on a new reader, thrown or not, its
    buffer and its loose flag stay what the constructor got, and the cursor
    stays inside the buffer. *)
Theorem reader_cursor_stays_inside
    (data_ : list byte) (allowLoose_ : bool) (calls : list ReaderSession.call) :
  let r := ReaderSession.run (Reader.new data_ allowLoose_) calls in
  Reader.data r = data_ ∧ Reader.allowLoose r = allowLoose_
  ∧ Reader.offset r ≤ length data_.
Proof.
  unfold ReaderSession.run.
  induction calls as [| c calls IH] using rev_ind; [cbn; repeat split; lia |].
  rewrite foldl_snoc. cbv zeta in IH. destruct IH as (Hdata & Hloose & Hoff).
  set (r := foldl ReaderSession.step (Reader.new data_ allowLoose_) calls) in *.
  assert (Hstep : ∀ length_ loose,
    Reader.data (Reader.readBytes r length_ loose).2 = data_
    ∧ Reader.allowLoose (Reader.readBytes r length_ loose).2 = allowLoose_
    ∧ Reader.offset (Reader.readBytes r length_ loose).2 ≤ length data_).
  { intros length_ loose.
    destruct (readBytes_frame r length_ loose) as (Hd & Hl & _).
    rewrite Hd, Hl. repeat split; [done.. |].
    rewrite <- Hdata. apply readBytes_cursor_inside. by rewrite Hdata. }
  destruct c as [length_ loose |]; [apply Hstep |].
  rewrite step_readValue. apply Hstep.
Qed.

(** X3. On a new reader that does not allow loose reads, or when no read
    asks for one, the cursor is a multiple of the word size after any reads. *)
Theorem strict_reader_cursor_is_aligned
    (data_ : list byte) (allowLoose_ : bool) (calls : list ReaderSession.call) :
  allowLoose_ = false ∨ Forall ReaderSession.strict calls →
  Reader.offset (ReaderSession.run (Reader.new data_ allowLoose_) calls)
    `mod` WordSize = 0.
Proof.
  unfold ReaderSession.run. intros Hstrict.
  induction calls as [| c calls IH] using rev_ind; [done |].
  rewrite foldl_snoc.
  assert (Hprev : allowLoose_ = false ∨ Forall ReaderSession.strict calls).
  { destruct Hstrict as [? | [? _]%Forall_app]; auto. }
  specialize (IH Hprev).
  pose proof (reader_cursor_stays_inside data_ allowLoose_ calls)
    as (_ & Hloose & _).
  unfold ReaderSession.run in Hloose.
  set (r := foldl ReaderSession.step (Reader.new data_ allowLoose_) calls) in *.
  destruct c as [length_ loose |].
  - apply readBytes_cursor_aligned; [| done].
    destruct Hstrict as [-> | [_ Hc]%Forall_app]; [by left |].
    rewrite Forall_singleton in Hc. right. exact Hc.
  - rewrite step_readValue. apply readBytes_cursor_aligned; [by right | done].
Qed.

Lemma strict_reader_cursor_is_aligned_witness :
  let calls := [ReaderSession.ReadBytes 3 true; ReaderSession.ReadValue;
                ReaderSession.ReadBytes 40 true] in
  (false = false ∨ Forall ReaderSession.strict calls)
  ∧ Reader.offset (ReaderSession.run (Reader.new (replicate 70 x01) false) calls)
      `mod` WordSize = 0.
Proof.
  intros calls.
  assert (H : false = false ∨ Forall ReaderSession.strict calls) by (by left).
  split; [exact H |].
  exact (strict_reader_cursor_is_aligned (replicate 70 x01) false calls H).
Defined.

(** X4. [readValue] never reads loosely: with less than a word left it
    throws BUFFER_OVERRUN, whatever the reader allows, and the reader is as
    before. *)
Theorem readValue_needs_a_word (r : Reader.t) :
  length (Reader.data r) < Reader.offset r + WordSize →
  Reader.readValue r
  = (Throw (EthersError "data out-of-bounds" "BUFFER_OVERRUN"
              (OverrunInfo (Reader.data r) (length (Reader.data r))
                           (Reader.offset r + WordSize))),
     r).
Proof.
  intros Hshort. unfold Reader.readValue, Reader.readBytes.
  rewrite (peekBytes_past_end_strict r 0 WordSize false); [done | done |].
  by intros (_ & ? & _).
Qed.

Lemma readValue_needs_a_word_witness :
  let r := Reader.new (replicate 31 x01) true in
  length (Reader.data r) < Reader.offset r + WordSize
  ∧ (Reader.readValue r).2 = r.
Proof.
  intros r.
  assert (H : length (Reader.data r) < Reader.offset r + WordSize)
    by (vm_compute; lia).
  split; [exact H |]. by rewrite (readValue_needs_a_word r H).
Defined.

(** X5. A sub-reader at [offset_] past the cursor starts at cursor 0 on
    the rest of the buffer with the loose flag of its parent, and a read on
    it returns what the same read returns on the parent with its cursor
    moved there, and moves as far. *)
Theorem subReader_reads_from_there
    (r : Reader.t) (offset_ length_ : nat) (loose : bool) :
  Reader.offset r + offset_ ≤ length (Reader.data r) →
  let sub := Reader.subReader r offset_ in
  let there := Reader.mk (Reader.allowLoose r) (Reader.data r)
                         (Reader.offset r + offset_) in
  sub = Reader.mk (Reader.allowLoose r)
                  (drop (Reader.offset r + offset_) (Reader.data r)) 0
  ∧ (∀ bytes, (Reader.readBytes sub length_ loose).1 = Return bytes
              ↔ (Reader.readBytes there length_ loose).1 = Return bytes)
  ∧ Reader.offset (Reader.readBytes there length_ loose).2
    = Reader.offset r + offset_
      + Reader.offset (Reader.readBytes sub length_ loose).2.
Proof.
  intros Hin sub there.
  assert (Hsub : sub = Reader.mk (Reader.allowLoose r)
                   (drop (Reader.offset r + offset_) (Reader.data r)) 0).
  { unfold sub, Reader.subReader, Reader.new, getBytesCopy, u8slice.
    f_equal. apply take_ge. rewrite length_drop. lia. }
  split; [exact Hsub |].
  rewrite Hsub. unfold there, Reader.readBytes, Reader.peekBytes. cbv zeta.
  cbn [Reader.data Reader.offset Reader.allowLoose].
  rewrite !length_drop, !Nat.add_0_l.
  set (m := Reader.offset r + offset_) in *.
  assert (Hslice : ∀ n, u8slice (drop m (Reader.data r)) 0 n
                        = u8slice (Reader.data r) m (m + n)).
  { intros n. rewrite u8slice_take_drop. unfold u8slice.
    by rewrite drop_0, Nat.sub_0_r. }
  rewrite !Hslice.
  destruct (Reader.allowLoose r), loose; cbn [andb];
    repeat case_bool_decide; cbn [fst snd Reader.offset]; try lia;
    (split; [done | lia]).
Qed.

Lemma subReader_reads_from_there_witness :
  let r := Reader.mk false (replicate 32 x00 ++ replicate 32 x01) 0 in
  Reader.offset r + 32 ≤ length (Reader.data r)
  ∧ ((Reader.readBytes (Reader.subReader r 32) 2 false).1 = Return [x01; x01]
     ↔ (Reader.readBytes (Reader.mk false (Reader.data r) 32) 2 false).1
       = Return [x01; x01]).
Proof.
  intros r.
  assert (H : Reader.offset r + 32 ≤ length (Reader.data r))
    by (vm_compute; lia).
  split; [exact H |].
  destruct (subReader_reads_from_there r 32 2 false H) as (_ & Hsame & _).
  apply Hsame.
Defined.

(** ** Writer: what is written is what is read *)

Lemma get_data_writeData w chunk :
  Writer.get_data (Writer.writeData w chunk).2 = Writer.get_data w ++ chunk.
Proof.
  unfold Writer.get_data, Writer.writeData. cbn [snd Writer.data].
  rewrite concat_app. cbn [concat]. by rewrite app_nil_r.
Qed.

(** X6. The bytes that [writeBytes] appended are what [readBytes] of
    their length returns on a reader standing where they begin, and the
    read ends where the data ends, the padding consumed. *)
Theorem writeBytes_readBytes
    (w : Writer.t) (value : list byte) (allowLoose loose : bool) :
  let data_ := Writer.get_data (Writer.writeBytes w value).2 in
  let r := Reader.mk allowLoose data_ (length (Writer.get_data w)) in
  Reader.readBytes r (length value) loose
  = (Return value, Reader.mk allowLoose data_ (length data_)).
Proof.
  intros data_ r.
  assert (Hdata : data_ = Writer.get_data w
                          ++ value ++ replicate (aligned (length value)
                                                 - length value) x00).
  { unfold data_. by rewrite writeBytes_chunk, get_data_writeData. }
  pose proof (aligned_ge (length value)) as Hge.
  assert (Hlen : length data_
                 = length (Writer.get_data w) + aligned (length value)).
  { rewrite Hdata, !length_app, length_replicate. lia. }
  subst r.
  destruct (readBytes_within
              (Reader.mk allowLoose data_ (length (Writer.get_data w)))
              (length value) loose) as [-> _].
  { cbn [Reader.offset Reader.data]. lia. }
  cbn [Reader.offset Reader.data Reader.allowLoose]. rewrite <- Hlen.
  f_equal. f_equal. rewrite Hdata, drop_app_length. apply take_app_length.
Qed.

Section writer_values.
Import Writer Session.

Lemma writeValue_fits_data w value :
  List.length (toBeArray value) ≤ WordSize →
  ∃ word, getValue value = Return word ∧ List.length word = WordSize
          ∧ toBigInt word = value
          ∧ writeValue w value
            = (Return WordSize,
               Writer.mk (data w ++ [word]) (dataLength w + WordSize)).
Proof.
  intros Hfit.
  destruct (getValue value) as [word |] eqn:Hword;
    [| by rewrite getValue_fits in Hword].
  pose proof (getValue_length _ _ Hword) as Hlen.
  exists word. repeat split; [done | by eapply getValue_toBigInt |].
  unfold writeValue, writeData. by rewrite Hword, Hlen.
Qed.

Lemma readValue_word allowLoose pre word post :
  List.length word = WordSize →
  Reader.readValue (Reader.mk allowLoose (pre ++ word ++ post) (List.length pre))
  = (Return (toBigInt word),
     Reader.mk allowLoose (pre ++ word ++ post) (List.length (pre ++ word))).
Proof.
  intros Hlen. unfold Reader.readValue.
  destruct (readBytes_within
              (Reader.mk allowLoose (pre ++ word ++ post) (List.length pre))
              WordSize false) as [-> _].
  { cbn [Reader.offset Reader.data]. change (aligned WordSize) with WordSize.
    rewrite !length_app. lia. }
  cbn [Reader.offset Reader.data Reader.allowLoose fmap outcome_fmap].
  rewrite drop_app_length, length_app.
  change (aligned WordSize) with WordSize.
  by rewrite <- Hlen, take_app_length.
Qed.

Lemma readValues_words allowLoose pre values post :
  Forall (λ v, List.length (toBeArray v) ≤ WordSize) values →
  ∀ s,
    let s' := foldl step s (WriteValue <$> values) in
    ∃ words,
      get_data (writer s') = get_data (writer s) ++ words
      ∧ (get_data (writer s) = pre →
         readValues (Reader.mk allowLoose (pre ++ words ++ post)
                               (List.length pre)) (List.length values)
         = (Return values,
            Reader.mk allowLoose (pre ++ words ++ post)
                      (List.length (pre ++ words)))).
Proof.
  intros Hfit. revert pre.
  induction Hfit as [| v values Hv _ IH]; intros pre s.
  - exists []. cbn. rewrite !app_nil_r. done.
  - cbn [fmap list_fmap foldl step].
    destruct (writeValue_fits_data (writer s) v Hv)
      as (word & Hword & Hlen & Hback & Hwrite).
    rewrite Hwrite. cbn [snd].
    set (s1 := Session.mk _ _).
    destruct (IH (pre ++ word) s1) as (words & Hdata & Hread).
    exists (word ++ words). cbv zeta in *. split.
    + rewrite Hdata. unfold s1, get_data. cbn [writer data].
      rewrite concat_app. cbn [concat]. by rewrite app_nil_r, <- app_assoc.
    + intros Hpre.
      change (List.length (v :: values)) with (S (List.length values)).
      cbn [readValues].
      rewrite <- (app_assoc word words post).
      rewrite (readValue_word allowLoose pre word (words ++ post) Hlen).
      rewrite (app_assoc pre word (words ++ post)), Hread.
      * cbn [fmap outcome_fmap]. rewrite Hback.
        by rewrite <- !app_assoc.
      * unfold s1, get_data. cbn [writer data].
        rewrite concat_app. cbn [concat].
        rewrite app_nil_r. unfold get_data in Hpre. by rewrite Hpre.
Qed.

End writer_values.

(** X7. Values that fit a word each, written in a row with [writeValue]
    into a new writer, are the values that as many [readValue] return in
    that order on a reader over the data of the writer, which ends at the
    end of the data. *)
Theorem writeValues_readValues (values : list N) (allowLoose : bool) :
  Forall (λ v, length (toBeArray v) ≤ WordSize) values →
  let data_ := Writer.get_data
                 (Session.writer (Session.run (Session.WriteValue <$> values))) in
  readValues (Reader.new data_ allowLoose) (length values)
  = (Return values, Reader.mk allowLoose data_ (length data_)).
Proof.
  intros Hfit data_.
  destruct (readValues_words allowLoose [] values [] Hfit Session.init)
    as (words & Hdata & Hread).
  cbv zeta in *. fold (Session.run (Session.WriteValue <$> values)) in Hdata.
  fold data_ in Hdata. cbn in Hdata. subst words.
  specialize (Hread eq_refl). cbn [app length] in Hread.
  rewrite app_nil_r in Hread. exact Hread.
Qed.

Lemma writeValues_readValues_witness :
  Forall (λ v, length (toBeArray v) ≤ WordSize) [1; 0; 2 ^ 255]%N
  ∧ (readValues
       (Reader.new
          (Writer.get_data
             (Session.writer
                (Session.run (Session.WriteValue <$> [1; 0; 2 ^ 255]%N))))
          false) 3).1
    = Return [1; 0; 2 ^ 255]%N.
Proof.
  assert (H : Forall (λ v, length (toBeArray v) ≤ WordSize) [1; 0; 2 ^ 255]%N).
  { repeat constructor; vm_compute; lia. }
  split; [exact H |].
  exact (f_equal fst (writeValues_readValues [1; 0; 2 ^ 255]%N false H)).
Defined.

(** X8. The closure of [writeUpdatableValue], called with a value that
    fits a word on a writer whose chunk at the captured offset is one word,
    puts the word of the value in place of that chunk and leaves all other
    chunks and the length as they are; [readValue] on a reader over the new
    data, standing where the chunk begins, returns the value. *)
Theorem update_writes_the_reserved_word
    (w : Writer.t) (u : Writer.updater) (before after : list (list byte))
    (old : list byte) (value : N) (allowLoose : bool) :
  Writer.data w = before ++ old :: after →
  Writer.captured_offset u = length before →
  length old = WordSize →
  length (toBeArray value) ≤ WordSize →
  ∃ word,
    Writer.update u w value
    = (Return tt, Writer.mk (before ++ word :: after) (Writer.dataLength w))
    ∧ length word = WordSize
    ∧ Writer.get_data (Writer.update u w value).2
      = concat before ++ word ++ concat after
    ∧ length (Writer.get_data (Writer.update u w value).2)
      = length (Writer.get_data w)
    ∧ (Reader.readValue
         (Reader.mk allowLoose (Writer.get_data (Writer.update u w value).2)
                    (length (concat before)))).1
      = Return value.
Proof.
  intros Hdata Hu Hold Hfit.
  destruct (getValue value) as [word |] eqn:Hword;
    [| by rewrite getValue_fits in Hword].
  pose proof (getValue_length _ _ Hword) as Hlen.
  pose proof (getValue_toBigInt _ _ Hword) as Hback.
  assert (Hupd : Writer.update u w value
                 = (Return tt, Writer.mk (before ++ word :: after)
                                         (Writer.dataLength w))).
  { unfold Writer.update. rewrite Hword, Hdata, Hu. do 2 f_equal.
    rewrite insert_app_r_alt, Nat.sub_diag by lia. done. }
  assert (Hget : Writer.get_data (Writer.update u w value).2
                 = concat before ++ word ++ concat after).
  { rewrite Hupd. unfold Writer.get_data. cbn [snd Writer.data].
    by rewrite concat_app. }
  exists word. split; [exact Hupd |]. split; [exact Hlen |].
  split; [exact Hget |]. split.
  - rewrite Hget. unfold Writer.get_data. rewrite Hdata, concat_app.
    cbn [concat]. rewrite !length_app. lia.
  - rewrite Hget, readValue_word by done. cbn [fst]. by rewrite Hback.
Qed.

Lemma update_writes_the_reserved_word_witness :
  let reserved :=
    Writer.writeUpdatableValue (Writer.writeBytes Writer.new [x01]).2 in
  let u := reserved.1 in
  let w := reserved.2 in
  let before := [[x01] ++ replicate 31 x00] in
  (Writer.data w = before ++ [Padding]
   ∧ Writer.captured_offset u = length before
   ∧ length Padding = WordSize
   ∧ length (toBeArray 64) ≤ WordSize)
  ∧ (Reader.readValue
       (Reader.mk false (Writer.get_data (Writer.update u w 64).2)
                  (length (concat before)))).1
    = Return 64%N.
Proof.
  intros reserved u w before.
  assert (H1 : Writer.data w = before ++ [Padding]) by reflexivity.
  assert (H2 : Writer.captured_offset u = length before) by reflexivity.
  assert (H3 : length Padding = WordSize) by reflexivity.
  assert (H4 : length (toBeArray 64) ≤ WordSize) by (vm_compute; lia).
  split; [done |].
  destruct (update_writes_the_reserved_word w u before [] Padding 64 false
              H1 H2 H3 H4) as (word & _ & _ & _ & _ & Hread).
  exact Hread.
Defined.

Section writer_alignment.
Import Writer Session.

Lemma list_sum_multiples (l : list (list byte)) :
  Forall (λ chunk, List.length chunk `mod` WordSize = 0) l →
  list_sum (map List.length l) `mod` WordSize = 0.
Proof.
  induction 1 as [| chunk l Hc _ IH]; [done |].
  change (list_sum (map List.length (chunk :: l)))
    with (List.length chunk + list_sum (map List.length l)).
  by rewrite Nat.Div0.add_mod, Hc, IH.
Qed.

Lemma chunks_aligned_step s c :
  appends_words c →
  Forall (λ chunk, List.length chunk `mod` WordSize = 0) (data (writer s)) →
  Forall (λ chunk, List.length chunk `mod` WordSize = 0)
         (data (writer (step s c))).
Proof.
  intros Hc Hs.
  assert (Hpush : ∀ chunk, List.length chunk `mod` WordSize = 0 →
    Forall (λ chunk, List.length chunk `mod` WordSize = 0)
           (data (writer s) ++ [chunk])).
  { intros chunk Hchunk. apply Forall_app. split; [done |].
    by apply Forall_singleton. }
  destruct c as [other | value | value | | k value]; cbn [step].
  - by apply Hpush.
  - rewrite writeBytes_chunk. cbn [writeData snd writer data].
    apply Hpush. rewrite length_app, length_replicate.
    pose proof (aligned_ge (List.length value)).
    replace (List.length value + (aligned (List.length value) - List.length value))
      with (aligned (List.length value)) by lia.
    apply aligned_multiple.
  - unfold writeValue. destruct (getValue value) as [bytes |] eqn:Hv; [| done].
    cbn [writeData snd writer data]. apply Hpush.
    by rewrite (getValue_length _ _ Hv).
  - cbn [writeUpdatableValue writer data]. by apply Hpush.
  - destruct (updaters s !! k) as [u |]; [| done].
    unfold update. destruct (getValue value) as [bytes |] eqn:Hv; [| done].
    cbn [snd writer data]. apply Forall_insert; [done |].
    by rewrite (getValue_length _ _ Hv).
Qed.

End writer_alignment.

(** X9. When every writer appended holds whole words, every chunk of the
    writer is a whole number of words after any sequence of calls, and so
    is the length it reports. *)
Theorem writer_stays_word_aligned (calls : list Session.call) :
  Forall appends_words calls →
  let w := Session.writer (Session.run calls) in
  Forall (λ chunk, length chunk `mod` WordSize = 0) (Writer.data w)
  ∧ Writer.length w `mod` WordSize = 0.
Proof.
  intros Hcalls w.
  assert (Hchunks : Forall (λ chunk, length chunk `mod` WordSize = 0)
                           (Writer.data w)).
  { unfold w, Session.run. clear w.
    induction calls as [| c calls IH] using rev_ind; [by constructor |].
    apply Forall_app in Hcalls as [Hcalls Hc]. rewrite Forall_singleton in Hc.
    rewrite foldl_snoc. apply chunks_aligned_step; [done | by apply IH]. }
  split; [exact Hchunks |].
  destruct (SessionFacts.inv_run calls) as [Hlen _].
  unfold Writer.length. fold w in Hlen. rewrite Hlen.
  by apply list_sum_multiples.
Qed.

Lemma writer_stays_word_aligned_witness :
  let calls := [Session.WriteBytes [x01; x02; x03]; Session.WriteUpdatableValue;
                Session.AppendWriter (Writer.writeValue Writer.new 5).2;
                Session.Update 0 7%N] in
  Forall appends_words calls
  ∧ Writer.length (Session.writer (Session.run calls)) `mod` WordSize = 0.
Proof.
  intros calls.
  assert (H : Forall appends_words calls) by (repeat constructor).
  split; [exact H |].
  exact (proj2 (writer_stays_word_aligned calls H)).
Defined.

(** X10. Making calls on a new writer and appending it to [w] gives the
    data that the same calls give when made on [w] itself, closures
    included: each closure of the one run is the closure of the other,
    shifted by the chunks of [w]. *)
Theorem appendWriter_is_writing_in_place
    (w : Writer.t) (calls : list Session.call) :
  let sub := Session.run calls in
  let direct := foldl Session.step (Session.mk w []) calls in
  Writer.get_data (Writer.appendWriter w (Session.writer sub)).2
  = Writer.get_data (Session.writer direct)
  ∧ Session.updaters direct
    = shift_updater (length (Writer.data w)) <$> Session.updaters sub.
Proof.
  intros sub direct.
  assert (Hsim : Writer.data (Session.writer direct)
                 = Writer.data w ++ Writer.data (Session.writer sub)
                 ∧ Session.updaters direct
                   = shift_updater (length (Writer.data w))
                       <$> Session.updaters sub).
  { unfold direct, sub, Session.run. clear direct sub.
    induction calls as [| c calls IH] using rev_ind.
    { cbn. by rewrite app_nil_r. }
    rewrite !foldl_snoc. destruct IH as [Hdata Hupd].
    set (d := foldl Session.step (Session.mk w []) calls) in *.
    set (s := foldl Session.step Session.init calls) in *.
    assert (Hpush : ∀ chunk,
      Writer.data (Session.writer d) ++ [chunk]
      = Writer.data w ++ Writer.data (Session.writer s) ++ [chunk])
      by (intros chunk; by rewrite Hdata, <- app_assoc).
    destruct c as [other | value | value | | k value]; cbn [Session.step].
    - split; [apply Hpush | done].
    - rewrite !writeBytes_chunk. split; [apply Hpush | done].
    - unfold Writer.writeValue.
      destruct (getValue value) as [bytes |]; [| done].
      split; [apply Hpush | done].
    - cbn [Writer.writeUpdatableValue Session.writer Session.updaters
             Writer.data].
      split; [apply Hpush |].
      rewrite Hupd, fmap_app. f_equal. cbn. unfold shift_updater. cbn.
      by rewrite Hdata, length_app.
    - rewrite Hupd, list_lookup_fmap.
      destruct (Session.updaters s !! k) as [u |]; cbn [fmap option_fmap option_map];
        [| done].
      unfold Writer.update.
      destruct (getValue value) as [bytes |]; cbn [snd Session.writer
        Session.updaters Writer.data]; [| done].
      split; [| done]. rewrite Hdata. unfold shift_updater. cbn.
      apply insert_app_r. }
  destruct Hsim as [Hdata Hupd]. split; [| exact Hupd].
  unfold Writer.appendWriter, getBytesCopy. rewrite get_data_writeData.
  unfold Writer.get_data. by rewrite Hdata, concat_app.
Qed.

(** X11. [getValue] returns for exactly the values below [2 ^ 256]; what
    it returns is one word, which reads back as the value. *)
Theorem getValue_accepts_one_word_values (value : N) :
  ((∃ word, getValue value = Return word) ↔ (value < 2 ^ 256)%N)
  ∧ ∀ word, getValue value = Return word →
            length word = WordSize ∧ toBigInt word = value.
Proof.
  split.
  - assert (Hpow : (256 ^ N.of_nat WordSize = 2 ^ 256)%N) by (by vm_compute).
    rewrite <- Hpow, <- length_toBeArray. split.
    + intros [word Hword].
      destruct (decide (length (toBeArray value) ≤ WordSize)); [done |].
      rewrite getValue_overrun in Hword by lia. discriminate.
    + intros Hfit. rewrite getValue_fits by done. eauto.
  - intros word Hword. split;
      [by eapply getValue_length | by eapply getValue_toBigInt].
Qed.

Lemma getValue_accepts_one_word_values_witness :
  (2 ^ 256 - 1 < 2 ^ 256)%N
  ∧ ∃ word, getValue (2 ^ 256 - 1) = Return word ∧ length word = WordSize.
Proof.
  assert (H : (2 ^ 256 - 1 < 2 ^ 256)%N) by (by vm_compute).
  split; [exact H |].
  destruct (getValue_accepts_one_word_values (2 ^ 256 - 1)) as [Hiff Hword].
  destruct (proj2 Hiff H) as [word Hget].
  exists word. split; [exact Hget | apply (Hword word Hget)].
Defined.

(** ** Result: names kept, values found *)

(** X12. The constructor keeps one name per slot: the names are as many
    as the items, no name is at two slots, and a slot keeps its key exactly
    when the key is a string given once among the keys. *)
Theorem fromItems_keeps_names_given_once
    (items : list value) (keys : option (list (option string))) :
  let r := Result.fromItems items keys in
  length (Result.names r) = length items
  ∧ names_unique (Result.names r)
  ∧ ∀ i name,
      Result.names r !! i = Some (Some name)
      ↔ i < length items ∧ default [] keys !! i = Some (Some name)
        ∧ occ name (default [] keys) = 1.
Proof.
  intros r. split; [apply length_uniqueNames |].
  split; [apply uniqueNames_unique |].
  intros i name. apply uniqueNames_lookup.
Qed.

(** X13. A name given once, at a slot that holds a value and no captured
    error, is an accessor of that value: [getValue] returns what the access
    by index returns. *)
Theorem getValue_of_name_given_once
    (items : list value) (keys : list (option string)) (name : string)
    (i : nat) (v : value) :
  keys !! i = Some (Some name) → occ name keys = 1 →
  items !! i = Some v → instanceofError v = false →
  let r := Result.fromItems items (Some keys) in
  Result.getValue r name = Return v ∧ Result.get r i = Return v.
Proof.
  intros Hkey Hone Hitem Hv r. split; [| by apply get_stored].
  assert (Hname : Result.names r !! i = Some (Some name)).
  { apply uniqueNames_lookup. split; [by eapply lookup_lt_Some | done]. }
  assert (Hidx : Result.indexOf (Result.names r) name = Some i).
  { apply indexOf_unique; [apply uniqueNames_unique | done]. }
  unfold Result.getValue, Result.raw. rewrite Hidx.
  change (Result.items r) with items. rewrite Hitem.
  change (default VUndefined (Some v)) with v. by rewrite Hv.
Qed.

Lemma getValue_of_name_given_once_witness :
  let items := [VBigInt 7; VString "x"] in
  let keys := [Some "a"; Some "b"] in
  (keys !! 1 = Some (Some "b") ∧ occ "b" keys = 1
   ∧ items !! 1 = Some (VString "x") ∧ instanceofError (VString "x") = false)
  ∧ Result.getValue (Result.fromItems items (Some keys)) "b"
    = Return (VString "x").
Proof.
  intros items keys.
  assert (H1 : keys !! 1 = Some (Some "b")) by reflexivity.
  assert (H2 : occ "b" keys = 1) by reflexivity.
  assert (H3 : items !! 1 = Some (VString "x")) by reflexivity.
  assert (H4 : instanceofError (VString "x") = false) by reflexivity.
  split; [done |].
  exact (proj1 (getValue_of_name_given_once items keys "b" 1 (VString "x")
                  H1 H2 H3 H4)).
Defined.

(** X14. A name that is given for no slot of the items (not given at
    all, or only at places past the last item) is no accessor: [getValue]
    returns [undefined]. *)
Theorem getValue_of_name_without_slot
    (items : list value) (keys : option (list (option string)))
    (name : string) :
  (∀ i, default [] keys !! i = Some (Some name) → length items ≤ i) →
  Result.getValue (Result.fromItems items keys) name = Return VUndefined.
Proof.
  intros Hnone. apply getValue_unknown.
  intros [i (Hlt & Hkey & _)%uniqueNames_lookup]%list_elem_of_lookup_1.
  specialize (Hnone i Hkey). lia.
Qed.

Lemma getValue_of_name_without_slot_witness :
  let keys := Some [Some "a"; Some "b"] in
  (∀ i, default [] keys !! i = Some (Some "b") → length [VBigInt 7] ≤ i)
  ∧ Result.getValue (Result.fromItems [VBigInt 7] keys) "b" = Return VUndefined.
Proof.
  intros keys.
  assert (H : ∀ i, default [] keys !! i = Some (Some "b")
                   → length [VBigInt 7] ≤ i).
  { intros [| i] Hi; [discriminate | cbn; lia]. }
  split; [exact H |].
  exact (getValue_of_name_without_slot [VBigInt 7] keys "b" H).
Defined.

(** X15. [toArray] throws the deferred error of the first slot that
    holds a captured error, with the index of that slot in the message. *)
Theorem toArray_throws_first_deferred_error
    (r : Result.t) (i : nat) (e : value) :
  first_error (Result.items r) i e →
  Result.toArray r = throwError ("index " ++ show i) e.
Proof.
  intros Hfirst.
  destruct (first_error_split _ _ _ Hfirst) as (Hsplit & Hpre & Hlen).
  destruct Hfirst as (_ & He & _).
  rewrite <- Hlen at 1.
  by apply (toArray_first_error r _ e (drop (S i) (Result.items r))).
Qed.

Lemma toArray_throws_first_deferred_error_witness :
  let boom := VError "boom" VUndefined in
  let r := Result.fromItems [VBigInt 1; boom; VError "late" VUndefined] None in
  first_error (Result.items r) 1 boom
  ∧ Result.toArray r = throwError "index 1" boom.
Proof.
  intros boom r.
  assert (H : first_error (Result.items r) 1 boom).
  { split; [done |]. split; [done |].
    intros [| j] v Hj Hv; [| lia]. by injection Hv as <-. }
  split; [exact H |].
  exact (toArray_throws_first_deferred_error r 1 boom H).
Defined.

(** ** Result: slice and filter *)

Section slices.
Import Result.

Lemma sub_range_all {A} (l : list A) :
  sub_range l 0 (Z.of_nat (length l)) = l.
Proof.
  unfold sub_range. rewrite Z.sub_0_r, Nat2Z.id. cbn [Z.to_nat].
  rewrite drop_0. by apply take_ge.
Qed.

Lemma sub_range_lookup {A} (l : list A) (start end_ : Z) (k : nat) :
  (0 ≤ start)%Z → (start + Z.of_nat k < end_)%Z →
  sub_range l start end_ !! k = l !! (Z.to_nat start + k).
Proof.
  intros Hs Hk. unfold sub_range.
  rewrite lookup_take_lt by lia. apply lookup_drop.
Qed.

(** [getValue] on a Result whose names are unique: the slot of the name
    decides. *)
Lemma getValue_at r name index v :
  names_unique (names r) → names r !! index = Some (Some name) →
  items r !! index = Some v →
  getValue r name
  = if instanceofError v
    then throwError ("property " ++ JSON_stringify name) (error_of v)
    else Return v.
Proof.
  intros Huniq Hn Hi. unfold getValue, raw.
  by rewrite (indexOf_unique _ _ _ Huniq Hn), Hi.
Qed.

End slices.

(** X16. [slice()] without bounds returns a Result equal to the one it
    is called on: the same values, the same names, wrapped. *)
Theorem slice_without_bounds_copies
    (items : list value) (keys : option (list (option string))) :
  Result.slice (Result.fromItems items keys) None None
  = Return (Result.fromItems items keys).
Proof.
  set (r := Result.fromItems items keys).
  change (Result.slice r None None)
    with (Result.slice r (Some 0%Z) (Some (Z.of_nat (length (Result.items r))))).
  rewrite slice_in_range; [| apply length_uniqueNames | apply uniqueNames_unique
                           | lia | lia].
  rewrite sub_range_all.
  replace (length (Result.items r)) with (length (Result.names r))
    by apply length_uniqueNames.
  by rewrite sub_range_all.
Qed.

(** X17. [slice(start, end)] does not clamp its bounds: the Result has
    [end - start] slots, and a slot that stands for an index outside the
    array, below 0 or past the last item, holds [undefined] and has no
    name. *)
Theorem slice_outside_is_undefined
    (items : list value) (keys : option (list (option string)))
    (start end_ : Z) :
  ∃ r',
    Result.slice (Result.fromItems items keys) (Some start) (Some end_)
    = Return r'
    ∧ length (Result.items r') = Z.to_nat (end_ - start)
    ∧ ∀ k : nat,
        (Z.of_nat k < end_ - start)%Z →
        (start + Z.of_nat k < 0 ∨ Z.of_nat (length items) ≤ start + Z.of_nat k)%Z →
        Result.items r' !! k = Some VUndefined
        ∧ Result.names r' !! k = Some None.
Proof.
  set (r := Result.fromItems items keys).
  exists (Result.construct_guarded
            (Result.rawZ r <$> seqZ start (end_ - start))
            (Some (Result.nameZ r <$> seqZ start (end_ - start)))).
  split; [reflexivity |].
  unfold Result.construct_guarded. cbn [Result.items Result.names].
  change (default [] (Some ?l)) with l.
  split; [by rewrite length_fmap, length_seqZ |].
  intros k Hk Hout.
  assert (Hitem : (Result.rawZ r <$> seqZ start (end_ - start)) !! k
                  = Some VUndefined).
  { rewrite list_lookup_fmap, lookup_seqZ_lt by lia. cbn [fmap option_fmap option_map].
    f_equal. unfold Result.rawZ, Result.raw. case_bool_decide; [| done].
    rewrite (lookup_ge_None_2 items) by (cbn; lia). done. }
  split; [exact Hitem |].
  unfold Result.uniqueNames. rewrite list_lookup_imap, Hitem.
  cbn [fmap option_fmap option_map].
  rewrite list_lookup_fmap, lookup_seqZ_lt by lia. cbn [fmap option_fmap option_map].
  unfold Result.nameZ. case_bool_decide; [| done].
  rewrite (lookup_ge_None_2 (Result.names r)); [done |].
  unfold r. cbn [Result.names Result.fromItems Result.construct_guarded].
  rewrite length_uniqueNames. lia.
Qed.

Lemma slice_outside_is_undefined_witness :
  ∃ r',
    Result.slice (Result.fromItems [VBigInt 1; VBigInt 2] (Some [Some "a"; Some "b"]))
                 (Some (-1)%Z) (Some 3%Z)
    = Return r'
    ∧ Result.items r' = [VUndefined; VBigInt 1; VBigInt 2; VUndefined].
Proof.
  destruct (slice_outside_is_undefined [VBigInt 1; VBigInt 2]
              (Some [Some "a"; Some "b"]) (-1) 3) as (r' & Hslice & _ & Hout).
  exists r'. split; [exact Hslice |].
  assert (H0 : Result.items r' !! 0 = Some VUndefined)
    by (apply (Hout 0); lia).
  vm_compute in Hslice. injection Hslice as <-. reflexivity.
Defined.

(** X18. Reading a slice inside the array is reading the original,
    shifted: slot [k] of [slice(start, end)] holds the value of slot
    [start + k] and keeps its name. A value is returned by both reads; a
    captured error is thrown by both with the same captured error, by the
    slice with the index [k]; [getValue] of the name of the slot does on the
    slice what it does on the original. *)
Theorem slice_then_read
    (items : list value) (keys : option (list (option string)))
    (start end_ : Z) (k : nat) (v : value) :
  (0 ≤ start)%Z → (start + Z.of_nat k < end_)%Z →
  (end_ ≤ Z.of_nat (length items))%Z →
  items !! (Z.to_nat start + k) = Some v →
  let r := Result.fromItems items keys in
  ∃ r',
    Result.slice r (Some start) (Some end_) = Return r'
    ∧ Result.get r' k
      = (if instanceofError v then throwError ("index " ++ show k) v
         else Return v)
    ∧ Result.get r (Z.to_nat start + k)
      = (if instanceofError v
         then throwError ("index " ++ show (Z.to_nat start + k)) v
         else Return v)
    ∧ ∀ name,
        Result.names r !! (Z.to_nat start + k) = Some (Some name) →
        Result.getValue r' name = Result.getValue r name.
Proof.
  intros Hs Hk Hend Hv r.
  eexists. split.
  { apply (slice_in_range r); [apply length_uniqueNames
                              | apply uniqueNames_unique | lia | done]. }
  set (r' := Result.mk _ _ _).
  assert (Hv' : Result.items r' !! k = Some v).
  { cbn [r' Result.items]. by rewrite sub_range_lookup. }
  split; [by rewrite (get_own r' k v Hv') |].
  split; [by rewrite (get_own r _ v Hv) |].
  intros name Hname.
  rewrite (getValue_at r name _ v (uniqueNames_unique _ _) Hname Hv).
  apply (getValue_at r' name k v); [| | done].
  - apply names_unique_sub_range, uniqueNames_unique.
  - cbn [r' Result.names]. by rewrite sub_range_lookup.
Qed.

Lemma slice_then_read_witness :
  let boom := VError "boom" VUndefined in
  let items := [VBigInt 1; VBigInt 2; boom] in
  ((0 ≤ 1)%Z ∧ (1 + Z.of_nat 1 < 3)%Z ∧ (3 ≤ Z.of_nat (length items))%Z
   ∧ items !! (Z.to_nat 1 + 1) = Some boom)
  ∧ ∃ r',
      Result.slice (Result.fromItems items None) (Some 1%Z) (Some 3%Z)
      = Return r'
      ∧ Result.get r' 1 = throwError "index 1" boom.
Proof.
  intros boom items.
  assert (H1 : (0 ≤ 1)%Z) by lia.
  assert (H2 : (1 + Z.of_nat 1 < 3)%Z) by lia.
  assert (H3 : (3 ≤ Z.of_nat (length items))%Z) by (cbn; lia).
  assert (H4 : items !! (Z.to_nat 1 + 1) = Some boom) by reflexivity.
  split; [done |].
  destruct (slice_then_read items None 1 3 1 boom H1 H2 H3 H4)
    as (r' & Hslice & Hget & _).
  exists r'. split; [exact Hslice | exact Hget].
Defined.

Section filters.
Import Result.

Lemma filter_loop_clean callback r :
  ∀ l i result names_,
    (∀ j v, l !! j = Some v →
            items r !! (i + j) = Some v ∧ instanceofError v = false) →
    let kept := base.filter (λ j, callback (raw r j) j = true)
                            (seq i (length l)) in
    filter_loop callback r i l result names_
    = Return (result ++ (raw r <$> kept), names_ ++ (name_at r <$> kept)).
Proof.
  induction l as [| item rest IH]; intros i result names_ Hl kept.
  - cbn. by rewrite !app_nil_r.
  - destruct (Hl 0 item eq_refl) as [Hitem Hclean].
    rewrite Nat.add_0_r in Hitem.
    assert (Hraw : raw r i = item) by (unfold raw; by rewrite Hitem).
    assert (Hrest : ∀ j v, rest !! j = Some v →
              items r !! (S i + j) = Some v ∧ instanceofError v = false).
    { intros j v Hj. specialize (Hl (S j) v Hj).
      by replace (S i + j) with (i + S j) by lia. }
    cbn [filter_loop]. rewrite Hclean.
    unfold kept. cbn [length seq]. rewrite filter_cons, Hraw.
    destruct (callback item i) eqn:Hcb.
    + rewrite decide_True by done. rewrite (IH (S i)) by done.
      cbn [fmap list_fmap]. rewrite Hraw, <- !app_assoc. done.
    + rewrite decide_False by congruence. by rewrite (IH (S i)).
Qed.

Lemma name_at_Some r i name :
  name_at r i = Some name → names r !! i = Some (Some name).
Proof.
  unfold name_at. destruct (names r !! i) as [[n |] |]; cbn; congruence.
Qed.

Lemma names_unique_kept callback r :
  names_unique (names r) →
  names_unique (name_at r <$> kept_indices callback r).
Proof.
  intros Huniq a b name Ha Hb.
  rewrite list_lookup_fmap in Ha, Hb.
  destruct (kept_indices callback r !! a) as [ia |] eqn:Hia; [| done].
  destruct (kept_indices callback r !! b) as [ib |] eqn:Hib; [| done].
  cbn in Ha, Hb. injection Ha as Ha. injection Hb as Hb.
  apply name_at_Some in Ha, Hb.
  pose proof (Huniq _ _ _ Ha Hb) as ->.
  assert (Hnodup : NoDup (kept_indices callback r)).
  { unfold kept_indices. apply NoDup_filter, NoDup_seq. }
  by eapply NoDup_lookup.
Qed.

End filters.

(** X19. On a wrapped Result that holds no captured error, [filter]
    returns the wrapped Result of the values that the callback accepts, in
    their order, each with the name its slot had. *)
Theorem filter_keeps_accepted
    (items : list value) (keys : option (list (option string)))
    (callback : value → nat → bool) :
  Forall (λ v, instanceofError v = false) items →
  let r := Result.fromItems items keys in
  let kept := kept_indices callback r in
  Result.filter r callback
  = Return (Result.mk true (Result.raw r <$> kept) (name_at r <$> kept)).
Proof.
  intros Hclean r kept. unfold Result.filter.
  rewrite filter_loop_clean.
  - cbn [mbind outcome_bind app]. unfold Result.construct_guarded.
    change (default [] (Some ?l)) with l. do 2 f_equal.
    apply uniqueNames_id.
    + by rewrite !length_fmap.
    + apply names_unique_kept, uniqueNames_unique.
  - intros j v Hj. split; [done |].
    rewrite Forall_lookup in Hclean. by eapply Hclean.
Qed.

Lemma filter_keeps_accepted_witness :
  let items := [VBigInt 1; VBigInt 2; VBigInt 3] in
  let keys := Some [Some "a"; Some "b"; Some "c"] in
  let odd := λ (v : value) (_ : nat),
    match v with VBigInt n => Z.odd n | _ => false end in
  Forall (λ v, instanceofError v = false) items
  ∧ Result.filter (Result.fromItems items keys) odd
    = Return (Result.mk true [VBigInt 1; VBigInt 3] [Some "a"; Some "c"]).
Proof.
  intros items keys odd.
  assert (H : Forall (λ v, instanceofError v = false) items)
    by (repeat constructor).
  split; [exact H |].
  rewrite (filter_keeps_accepted items keys odd H). reflexivity.
Defined.

(** ** checkResultErrors: what is reported *)

Section reports.

Lemma collect_nil_no_deferred object :
  ∀ path, collect path object = [] → no_deferred object = true.
Proof.
  induction object as [| | | | |wrap items names IH] using value_nested_ind;
    intros path; try done.
  cbn [collect no_deferred]. generalize 0 as index.
  induction IH as [| child rest Hchild _ IHrest]; intros index; [done |].
  cbn [collect_loop forallb].
  intros [Hblock Hrest]%app_eq_nil.
  rewrite (IHrest _ Hrest), andb_true_r.
  unfold get_element in Hblock.
  destruct (wrap && instanceofError child); [done |].
  by rewrite (Hchild _ Hblock).
Qed.

Lemma raises_at_shape object p err :
  raises_at object p err →
  ∃ path index e,
    p = path ++ [show index] ∧ instanceofError e = true
    ∧ err = JsError ("deferred error during ABI decoding triggered accessing "
                     ++ "index " ++ show index) e.
Proof.
  induction 1 as [wrap items names index err Hlt Hget
                 | wrap items names index child p err Hlt Hget _ IH].
  - destruct (lookup_lt_is_Some_2 items index Hlt) as [c Hc].
    rewrite (get_own (Result.mk wrap items names) _ _ Hc) in Hget.
    cbn [Result.wrap] in Hget. unfold get_element in Hget.
    destruct wrap, (instanceofError c) eqn:Hinst; try done.
    injection Hget as <-. by exists [], index, c.
  - destruct IH as (path & i & e & -> & Hinst & ->).
    by exists (show index :: path), i, e.
Qed.

End reports.

(** X20. [checkResultErrors] returns the empty list exactly for the
    Results inside which no read throws. *)
Theorem checkResultErrors_empty_iff (r : Result.t) :
  checkResultErrors r = Return [] ↔ no_deferred (Result.to_value r) = true.
Proof.
  unfold checkResultErrors. rewrite checkErrors_collect.
  cbn [mbind outcome_bind app]. split.
  - intros [= Hnil]. exact (collect_nil_no_deferred (Result.to_value r) [] Hnil).
  - intros Hclean. by rewrite collect_no_deferred.
Qed.

(** X21. Every entry that [checkResultErrors] returns holds a deferred
    error: its error is the wrapper of [throwError] around a captured
    [Error], and the message of the wrapper names the index that is the last
    key of the path of the entry. A range error is never reported. *)
Theorem checkResultErrors_reports_deferred_errors
    (r : Result.t) (errors : list error_entry) (entry : error_entry) :
  checkResultErrors r = Return errors → entry ∈ errors →
  ∃ path index e,
    entry_path entry = path ++ [show index] ∧ instanceofError e = true
    ∧ entry_error entry
      = JsError ("deferred error during ABI decoding triggered accessing "
                 ++ "index " ++ show index) e.
Proof.
  unfold checkResultErrors. rewrite checkErrors_collect.
  cbn [mbind outcome_bind app]. intros [= <-] Hentry.
  destruct (collect_sound (Result.to_value r) [] _ Hentry)
    as (p & Hp & Hraise).
  cbn [app] in Hp. rewrite Hp. by eapply raises_at_shape.
Qed.

Lemma checkResultErrors_reports_deferred_errors_witness :
  let boom := VError "boom" VUndefined in
  let inner := Result.to_value (Result.fromItems [VBigInt 1; boom] None) in
  let r := Result.fromItems [inner] None in
  let entry := ErrorEntry ["0"%string; "1"%string]
                 (JsError "deferred error during ABI decoding triggered accessing index 1"
                          boom) in
  (checkResultErrors r = Return [entry] ∧ entry ∈ [entry])
  ∧ ∃ path index e,
      entry_path entry = path ++ [show index] ∧ instanceofError e = true
      ∧ entry_error entry
        = JsError ("deferred error during ABI decoding triggered accessing "
                   ++ "index " ++ show index) e.
Proof.
  intros boom inner r entry.
  assert (H1 : checkResultErrors r = Return [entry]) by reflexivity.
  assert (H2 : entry ∈ [entry]) by (by apply list_elem_of_singleton).
  split; [done |].
  exact (checkResultErrors_reports_deferred_errors r [entry] entry H1 H2).
Defined.

(** ** Result: toObject *)

Section objects.
Import Result ResultObject.
Variable inherited : string → bool.

Lemma getValue_clean r name :
  Forall (λ v, instanceofError v = false) (items r) →
  getValue r name = Return (named_value r name).
Proof.
  intros Hclean. unfold getValue, named_value.
  destruct (indexOf (names r) name) as [index |]; [| done].
  unfold raw. destruct (items r !! index) as [v |] eqn:Hv; [| done].
  rewrite Forall_lookup in Hclean. cbn. by rewrite (Hclean _ _ Hv).
Qed.

Lemma reduce_unnamed r l :
  None ∈ l → ∀ index accum entries,
    reduce inherited r index l accum ≠ Object entries.
Proof.
  induction l as [| [name |] rest IH]; intros Hin index accum entries.
  - by apply elem_of_nil in Hin.
  - apply elem_of_cons in Hin as [| Hin]; [done |].
    cbn [reduce]. destruct (has inherited accum name); [by apply IH |].
    destruct (getValue r name); [by apply IH | done].
  - done.
Qed.

Lemma reduce_unnamed_clean r l :
  Forall (λ v, instanceofError v = false) (items r) →
  None ∈ l → ∀ index accum,
    reduce inherited r index l accum
    = Unsupported "value at index ${ index } unnamed" "toObject()".
Proof.
  intros Hclean.
  induction l as [| [name |] rest IH]; intros Hin index accum.
  - by apply elem_of_nil in Hin.
  - apply elem_of_cons in Hin as [| Hin]; [done |].
    cbn [reduce]. destruct (has inherited accum name); [by apply IH |].
    rewrite getValue_clean by done. by apply IH.
  - done.
Qed.

Lemma reduce_named r :
  names_unique (names r) →
  Forall (λ v, instanceofError v = false) (items r) →
  ∀ l seen index accum,
    names r = seen ++ l → None ∉ l → object_of inherited r seen accum →
    ∃ entries,
      reduce inherited r index l accum = Object entries
      ∧ object_of inherited r (names r) entries.
Proof.
  intros Huniq Hclean.
  induction l as [| [name |] rest IH]; intros seen index accum Hsplit Hnamed Hinv.
  - rewrite app_nil_r in Hsplit. subst seen. by exists accum.
  - assert (Hfresh : Some name ∉ seen).
    { intros [a Ha]%list_elem_of_lookup_1.
      pose proof (lookup_lt_Some _ _ _ Ha) as Hlt.
      assert (Ha' : names r !! a = Some (Some name))
        by (rewrite Hsplit; by apply lookup_app_l_Some).
      assert (Hb : names r !! length seen = Some (Some name))
        by (by rewrite Hsplit, list_lookup_middle).
      specialize (Huniq _ _ _ Ha' Hb). lia. }
    assert (Hnone : accum !! name = if inherited name then None else None).
    { rewrite (Hinv name). by rewrite decide_False. }
    assert (Hnext : names r = (seen ++ [Some name]) ++ rest)
      by (by rewrite <- app_assoc).
    assert (Hrest : None ∉ rest) by (intros ?; apply Hnamed; by right).
    cbn [reduce]. unfold has.
    destruct (inherited name) eqn:Hinh; cbn [orb].
    + apply (IH (seen ++ [Some name])); [done.. |].
      intros n. rewrite (Hinv n). destruct (inherited n) eqn:Hn; [done |].
      assert (n ≠ name) by congruence.
      destruct (decide (Some n ∈ seen)) as [Hs | Hs].
      * rewrite decide_True; [done |]. apply elem_of_app. by left.
      * rewrite decide_False; [done |].
        intros [? | ?%list_elem_of_singleton]%elem_of_app; congruence.
    + rewrite Hnone, bool_decide_eq_false_2 by (by intros [? ?]).
      rewrite getValue_clean by done.
      apply (IH (seen ++ [Some name])); [done.. |].
      intros n. destruct (decide (n = name)) as [-> | Hne].
      * rewrite lookup_insert_eq, Hinh. rewrite decide_True; [done |].
        apply elem_of_app. right. by apply list_elem_of_singleton.
      * rewrite lookup_insert_ne by done. rewrite (Hinv n).
        destruct (inherited n); [done |].
        destruct (decide (Some n ∈ seen)) as [Hs | Hs].
        -- rewrite decide_True; [done |]. apply elem_of_app. by left.
        -- rewrite decide_False; [done |].
           intros [? | ?%list_elem_of_singleton]%elem_of_app; congruence.
  - exfalso. apply Hnamed. by left.
Qed.

(** X22. [toObject] never returns an object for a Result with a slot
    without a name, and when no slot holds a captured error it throws
    UNSUPPORTED_OPERATION; the message keeps its placeholder as written. *)
Theorem toObject_needs_every_name (r : Result.t) :
  None ∈ names r →
  (∀ entries, toObject inherited r ≠ Object entries)
  ∧ (Forall (λ v, instanceofError v = false) (items r) →
     toObject inherited r
     = Unsupported "value at index ${ index } unnamed" "toObject()").
Proof.
  intros Hin. split.
  - intros entries. by apply reduce_unnamed.
  - intros Hclean. by apply reduce_unnamed_clean.
Qed.

(** X23. On a Result of [fromItems] whose slots all have a name and hold
    no captured error, [toObject] returns an object that has, for each name
    that an empty object does not inherit, the value of the slot of that
    name, and nothing else: a name that an empty object has already (such as
    a method of [Object.prototype]) is left out. *)
Theorem toObject_maps_names_to_values
    (items_ : list value) (keys : option (list (option string))) :
  let r := fromItems items_ keys in
  Forall (λ v, instanceofError v = false) items_ →
  None ∉ names r →
  ∃ entries,
    toObject inherited r = Object entries
    ∧ ∀ name,
        entries !! name
        = if inherited name then None
          else match indexOf (names r) name with
               | Some index => items_ !! index
               | None => None
               end.
Proof.
  intros r Hclean Hnamed.
  destruct (reduce_named r (uniqueNames_unique _ _) Hclean (names r) [] 0 ∅)
    as (entries & Hrun & Hinv); [done | done | |].
  { intros name. rewrite lookup_empty. destruct (inherited name); [done |].
    rewrite decide_False; [done |]. apply not_elem_of_nil. }
  exists entries. split; [exact Hrun |].
  intros name. rewrite (Hinv name). destruct (inherited name); [done |].
  unfold named_value.
  destruct (indexOf (names r) name) as [index |] eqn:Hidx.
  - apply indexOf_Some in Hidx as Hname.
    rewrite decide_True by (by eapply list_elem_of_lookup_2).
    apply lookup_lt_Some in Hname.
    unfold r in Hname. cbn [names fromItems construct_guarded] in Hname.
    rewrite length_uniqueNames in Hname.
    destruct (lookup_lt_is_Some_2 items_ index Hname) as [v Hv].
    unfold raw. change (Result.items r) with items_. by rewrite Hv.
  - rewrite decide_False; [done |].
    intros [i Hi]%list_elem_of_lookup_1.
    assert (Hsome : indexOf (names r) name = Some i)
      by (apply indexOf_unique; [apply uniqueNames_unique | done]).
    congruence.
Qed.

End objects.

Lemma toObject_needs_every_name_witness :
  let r := Result.fromItems [VBigInt 1; VBigInt 2] (Some [Some "a"; Some "a"]) in
  None ∈ Result.names r
  ∧ ResultObject.toObject Object_prototype_has r
    = ResultObject.Unsupported "value at index ${ index } unnamed" "toObject()".
Proof.
  intros r.
  assert (H : None ∈ Result.names r).
  { assert (Hn : Result.names r = [None; None]) by (by vm_compute).
    rewrite Hn. by left. }
  split; [exact H |].
  apply (toObject_needs_every_name Object_prototype_has r H).
  repeat constructor.
Defined.

Lemma toObject_maps_names_to_values_witness :
  let items := [VBigInt 1; VBigInt 2] in
  let keys := Some [Some "a"; Some "toString"] in
  let r := Result.fromItems items keys in
  (Forall (λ v, instanceofError v = false) items ∧ None ∉ Result.names r)
  ∧ ∃ entries,
      ResultObject.toObject Object_prototype_has r = ResultObject.Object entries
      ∧ entries !! "a" = Some (VBigInt 1)
      ∧ entries !! "toString" = None.
Proof.
  intros items keys r.
  assert (H1 : Forall (λ v, instanceofError v = false) items)
    by (repeat constructor).
  assert (H2 : None ∉ Result.names r).
  { assert (Hn : Result.names r = [Some "a"; Some "toString"])
      by (by vm_compute).
    rewrite Hn. intros H. repeat (apply elem_of_cons in H as [H | H]; [done |]).
    by apply elem_of_nil in H. }
  split; [done |].
  destruct (toObject_maps_names_to_values Object_prototype_has items keys H1 H2)
    as (entries & Hrun & Hlookup).
  exists entries. split; [exact Hrun |]. split.
  - rewrite Hlookup. reflexivity.
  - rewrite Hlookup. reflexivity.
Defined.

(** ** ContractFactory: the deployment transaction *)

Section factories.
Import ContractFactory.
Variable inputs : nat.
Variable bytecode : list byte.
Variable copyOverrides : value → outcome (gmap string value).
Variable resolveArgs : list value → outcome (list value).
Variable encodeDeploy : list value → outcome (list byte).

(** X24. [getDeployTransaction] settles with a transaction only for as
    many arguments as the constructor has inputs, or one more; with any
    other number it throws "incorrect number of arguments to constructor",
    whatever the arguments are. *)
Theorem getDeployTransaction_counts_arguments (args : list value) :
  (length args ≠ inputs → length args ≠ inputs + 1 →
   (getDeployTransaction inputs bytecode copyOverrides resolveArgs
     encodeDeploy) args
   = Throw (JsError "incorrect number of arguments to constructor" VUndefined))
  ∧ (∀ tx, (getDeployTransaction inputs bytecode copyOverrides resolveArgs
     encodeDeploy) args = Return tx →
           length args = inputs ∨ length args = inputs + 1).
Proof.
  unfold getDeployTransaction. split.
  - intros Hn Hn1. rewrite bool_decide_eq_false_2 by lia.
    cbn [mbind outcome_bind mret outcome_ret].
    by rewrite bool_decide_eq_true_2 by lia.
  - intros tx. case_bool_decide as Hmore; [lia |].
    cbn [mbind outcome_bind]. case_bool_decide as Hsame; [done | lia].
Qed.

(** X25. With one argument more than the constructor has inputs, the
    last argument is the overrides and the others are the constructor
    arguments: when the overrides are copied and the arguments resolved and
    encoded, the transaction is the copy of the overrides with [data] set to
    the bytecode followed by the encoded arguments, whatever [data] the
    overrides had. *)
Theorem getDeployTransaction_data_wins
    (args resolved : list value) (last_arg : value)
    (overrides : gmap string value) (encoded : list byte) :
  length args = inputs →
  copyOverrides last_arg = Return overrides →
  resolveArgs args = Return resolved →
  encodeDeploy resolved = Return encoded →
  (getDeployTransaction inputs bytecode copyOverrides resolveArgs
     encodeDeploy)
    (args ++ [last_arg])
  = Return (<["data" := VBytes (bytecode ++ encoded)]> overrides)
  ∧ ∀ tx, (getDeployTransaction inputs bytecode copyOverrides resolveArgs
     encodeDeploy)
    (args ++ [last_arg]) = Return tx →
          tx !! "data" = Some (VBytes (bytecode ++ encoded))
          ∧ ∀ key, key ≠ "data" → tx !! key = overrides !! key.
Proof.
  intros Hargs Hcopy Hresolve Hencode.
  assert (Hrun : (getDeployTransaction inputs bytecode copyOverrides resolveArgs
     encodeDeploy)
    (args ++ [last_arg])
                 = Return (<["data" := VBytes (bytecode ++ encoded)]> overrides)).
  { unfold getDeployTransaction.
    rewrite bool_decide_eq_true_2 by (rewrite length_app; cbn; lia).
    rewrite last_snoc, removelast_last.
    change (default VUndefined (Some last_arg)) with last_arg.
    rewrite Hcopy. cbn [mbind outcome_bind].
    rewrite bool_decide_eq_false_2 by lia.
    rewrite Hresolve. cbn [mbind outcome_bind]. rewrite Hencode.
    cbn [mbind outcome_bind concat]. by rewrite app_nil_r. }
  split; [exact Hrun |].
  intros tx. rewrite Hrun. intros [= <-]. split.
  - apply lookup_insert_eq.
  - intros key Hkey. by apply lookup_insert_ne.
Qed.

End factories.

Lemma getDeployTransaction_counts_arguments_witness :
  let deploy :=
    ContractFactory.getDeployTransaction 1 [x60]
      (λ _, Return ∅) (λ args, Return args) (λ _, Return []) in
  (length [VBigInt 1; VBigInt 2; VBigInt 3] ≠ 1
   ∧ length [VBigInt 1; VBigInt 2; VBigInt 3] ≠ 1 + 1)
  ∧ deploy [VBigInt 1; VBigInt 2; VBigInt 3]
    = Throw (JsError "incorrect number of arguments to constructor" VUndefined).
Proof.
  intros deploy.
  assert (H1 : length [VBigInt 1; VBigInt 2; VBigInt 3] ≠ 1) by (cbn; lia).
  assert (H2 : length [VBigInt 1; VBigInt 2; VBigInt 3] ≠ 1 + 1) by (cbn; lia).
  split; [done |].
  exact (proj1 (getDeployTransaction_counts_arguments 1 [x60]
                  (λ _, Return ∅) (λ args, Return args) (λ _, Return [])
                  [VBigInt 1; VBigInt 2; VBigInt 3]) H1 H2).
Defined.

Lemma getDeployTransaction_data_wins_witness :
  let given : gmap string value :=
    <["data" := VString "0xff"]> (<["value" := VBigInt 5]> ∅) in
  let copy := λ _ : value, Return given in
  let resolve := λ args : list value, Return args in
  let encode := λ _ : list value, Return [x01; x02] in
  (length [VBigInt 7] = 1 ∧ copy VUndefined = Return given
   ∧ resolve [VBigInt 7] = Return [VBigInt 7]
   ∧ encode [VBigInt 7] = Return [x01; x02])
  ∧ ContractFactory.getDeployTransaction 1 [x60] copy resolve encode
      ([VBigInt 7] ++ [VUndefined])
    = Return (<["data" := VBytes ([x60] ++ [x01; x02])]> given).
Proof.
  intros given copy resolve encode.
  assert (H1 : length [VBigInt 7] = 1) by reflexivity.
  assert (H2 : copy VUndefined = Return given) by reflexivity.
  assert (H3 : resolve [VBigInt 7] = Return [VBigInt 7]) by reflexivity.
  assert (H4 : encode [VBigInt 7] = Return [x01; x02]) by reflexivity.
  split; [done |].
  exact (proj1 (getDeployTransaction_data_wins 1 [x60] copy resolve encode
                  [VBigInt 7] [VBigInt 7] VUndefined given [x01; x02]
                  H1 H2 H3 H4)).
Defined.

(** ** Writer: the closures stay inside the chunks *)

(** X26. After any sequence of calls, every closure that
    [writeUpdatableValue] has returned stores inside the chunk array, at a
    chunk of one word; calling it, with whatever value, leaves the number
    of chunks as it is. *)
Theorem closure_store_is_in_range
    (calls : list Session.call) (u : Writer.updater) (value : N) :
  u ∈ Session.updaters (Session.run calls) →
  let w := Session.writer (Session.run calls) in
  Writer.captured_offset u < length (Writer.data w)
  ∧ (∃ chunk, Writer.data w !! Writer.captured_offset u = Some chunk
              ∧ length chunk = WordSize)
  ∧ length (Writer.data (Writer.update u w value).2) = length (Writer.data w).
Proof.
  intros Hu w.
  destruct (SessionFacts.inv_run calls) as [_ Hupd].
  destruct (Hupd u Hu) as (chunk & Hchunk & Hlen).
  split; [by eapply lookup_lt_Some |]. split; [by exists chunk |].
  unfold Writer.update. destruct (getValue value); [| done].
  cbn [snd Writer.data]. apply length_insert.
Qed.

Lemma closure_store_is_in_range_witness :
  let calls := [Session.WriteValue 1; Session.WriteUpdatableValue;
                Session.WriteBytes [x01]] in
  Writer.Updater 1 ∈ Session.updaters (Session.run calls)
  ∧ Writer.captured_offset (Writer.Updater 1)
    < length (Writer.data (Session.writer (Session.run calls))).
Proof.
  intros calls.
  assert (H : Writer.Updater 1 ∈ Session.updaters (Session.run calls)).
  { assert (Hu : Session.updaters (Session.run calls) = [Writer.Updater 1])
      by (by vm_compute).
    rewrite Hu. by left. }
  split; [exact H |].
  exact (proj1 (closure_store_is_in_range calls (Writer.Updater 1) 0 H)).
Defined.
